(** * Verification of the Myers line diff of [internal/lsp/diff/diff.go]

    The Go code is embedded shallowly.  Go strings are modelled by lists of
    bytes ([ascii]), slices by lists, and a run-time panic (index or slice
    bound out of range) is the result [None].

    Go [int] values are modelled by [Z].  In [shortestEditSequence],
    [Operations], [myOperations] and in [backtrack] as [Operations] calls
    it, every integer is bounded by a small multiple of a slice length, and
    the arithmetic is written on [Z] as it stands in the source.  Where a
    function is studied on arguments of the caller's choosing, the model
    takes the range of [int] into account: [backtrack64] is [backtrack]
    with the wrap-around of the 64-bit [int] written out at each addition
    and subtraction, and is shown to agree with the version on [Z] on the
    traces of the forward search; the statements on [ApplyEdits] keep the
    indices of the operations non-negative, so that none of its
    subtractions can overflow.

    A Go loop becomes a recursive function on a fuel that is the number of
    iterations the loop can make at most from its entry state, so that the
    function and the loop agree on every input; the section on the loops
    running to their end proves that none stops for lack of fuel. *)

From Stdlib Require Import ZArith Lia Ascii String Bool.
From stdpp Require Import base tactics option numbers list strings.

Open Scope Z_scope.

(** ** Go slices and strings *)

Definition gostring := list ascii.

Definition LF : ascii := "010"%char.
Definition CR : ascii := "013"%char.

(** [len(s)] *)
Definition len {A} (l : list A) : Z := Z.of_nat (length l).

(** [s[i]], panics outside [0, len(s)). *)
Definition at_ {A} (l : list A) (i : Z) : option A :=
  if i <? 0 then None else l !! Z.to_nat i.

(** [s[i] = v], panics outside [0, len(s)). *)
Definition set_ {A} (l : list A) (i : Z) (v : A) : option (list A) :=
  if (0 <=? i) && (i <? len l) then Some (<[Z.to_nat i := v]> l) else None.

(** [s[lo:hi]].  Go checks [hi] against the capacity of [s], which is at
    least its length and is not modelled; this function checks it against
    the length.  So a result [Some l] holds of the code whatever the
    capacity (the slice expression is in range and gives [l]), while a
    result [None] due to [hi] alone only holds of slices whose capacity is
    their length.  No statement below draws a conclusion from such a
    [None]. *)
Definition slice {A} (l : list A) (lo hi : Z) : option (list A) :=
  if (0 <=? lo) && (lo <=? hi) && (hi <=? len l)
  then Some (take (Z.to_nat (hi - lo)) (drop (Z.to_nat lo) l))
  else None.

(** [make([]T, n)] with zero value [z]; the program never makes a slice
    of negative length. *)
Definition make {A} (z : A) (n : Z) : list A := replicate (Z.to_nat n) z.

(** [copy(dst, src)]: the first [min(len(dst), len(src))] elements. *)
Definition copy {A} (dst src : list A) : list A :=
  take (length dst) src ++ drop (length src) dst.

(** Sequencing of computations that may panic. *)
Notation "'let!' x ':=' e 'in' f" :=
  (match e with Some x => f | None => None end)
  (at level 10, x pattern, e at level 200, f at level 200, only parsing).

(** ** The operation type *)

Inductive OpKind := Delete | Insert | Equal.

Record Op := mkOp {
  Kind : OpKind;
  Content : list gostring;
  I1 : Z;
  I2 : Z;
  J1 : Z
}.

(** ** [stringEqualIgnoreLF] *)

(** The loop [for i := 0; i < la; i++ { if a[i] != b[i] { return false } }]. *)
Fixpoint cmp_loop (fuel : nat) (a b : gostring) (la i : Z) : option bool :=
  match fuel with
  | O => Some true
  | S f =>
      if i <? la then
        let! x := at_ a i in
        let! y := at_ b i in
        if negb (Ascii.eqb x y) then Some false
        else cmp_loop f a b la (i + 1)
      else Some true
  end.

(** [if la > 0 && a[la-1] == '\r' { la = la - 1 }] *)
Definition dropCR (a : gostring) (la : Z) : option Z :=
  if 0 <? la then
    let! c := at_ a (la - 1) in
    Some (if Ascii.eqb c CR then la - 1 else la)
  else Some la.

Definition stringEqualIgnoreLF (a b : gostring) : option bool :=
  let la := len a - 1 in
  let lb := len b - 1 in
  let! la := dropCR a la in
  let! lb := dropCR b lb in
  if negb (la =? lb) then Some false
  else cmp_loop (Z.to_nat la) a b la 0.

(** ** [SplitLines] *)

(** [strings.SplitAfter(text, "\n")] of the Go standard library, from its
    documentation: the substrings after each newline, the last one being
    what follows the final newline (possibly empty). *)
Fixpoint SplitAfterLF (text : gostring) : list gostring :=
  match text with
  | [] => [[]]
  | c :: rest =>
      if Ascii.eqb c LF then [c] :: SplitAfterLF rest
      else match SplitAfterLF rest with
           | l :: ls => (c :: l) :: ls
           | [] => [[c]]
           end
  end.

Definition SplitLines (text : gostring) : option (list gostring) :=
  let lines := SplitAfterLF text in
  let! last := at_ lines (len lines - 1) in
  if bool_decide (last = []) then slice lines 0 (len lines - 1)
  else Some lines.

(** ** [ApplyEdits]

    The subtractions [op.I1 - prevI2] and [len(a) - prevI2] are exact as
    long as the indices of the operations are not negative, which every
    statement on [ApplyEdits] below assumes or establishes. *)

Fixpoint apply_loop (a : list gostring) (operations : list Op)
    (b : list gostring) (prevI2 : Z) : option (list gostring * Z) :=
  match operations with
  | [] => Some (b, prevI2)
  | op :: rest =>
      let! b := (if 0 <? I1 op - prevI2 then
                   let! s := slice a prevI2 (I1 op) in Some (b ++ s)
                 else Some b) in
      let b := match Kind op with
               | Equal | Insert => b ++ Content op
               | Delete => b
               end in
      apply_loop a rest b (I2 op)
  end.

Definition ApplyEdits (a : list gostring) (operations : list Op)
    : option (list gostring) :=
  let! (b, prevI2) := apply_loop a operations [] 0 in
  if 0 <? len a - prevI2 then
    let! s := slice a prevI2 (len a) in Some (b ++ s)
  else Some b.

(** ** [shortestEditSequence] *)

(** The test [k == -d || (k != d && V[k-1+offset] < V[k+1+offset])], used
    by the forward search and again by [backtrack]. *)
Definition goesDown (V : list Z) (k d offset : Z) : option bool :=
  if k =? - d then Some true
  else if negb (k =? d) then
    let! l := at_ V (k - 1 + offset) in
    let! r := at_ V (k + 1 + offset) in
    Some (l <? r)
  else Some false.

(** [for x < M && y < N && stringEqualIgnoreLF(a[x], b[y]) { x++; y++ }] *)
Fixpoint diag_loop (fuel : nat) (a b : list gostring) (x y : Z)
    : option (Z * Z) :=
  match fuel with
  | O => Some (x, y)
  | S f =>
      if (x <? len a) && (y <? len b) then
        let! s := at_ a x in
        let! t := at_ b y in
        let! e := stringEqualIgnoreLF s t in
        if e then diag_loop f a b (x + 1) (y + 1) else Some (x, y)
      else Some (x, y)
  end.

(** The loop [for k := -d; k <= d; k += 2]; the boolean of the result says
    whether the end point was reached (the early [return]). *)
Fixpoint k_loop (fuel : nat) (a b : list gostring) (d offset : Z)
    (V : list Z) (k : Z) : option (list Z * bool) :=
  match fuel with
  | O => Some (V, false)
  | S f =>
      if k <=? d then
        let! down := goesDown V k d offset in
        let! x := (if down then at_ V (k + 1 + offset)
                   else (let! l := at_ V (k - 1 + offset) in Some (l + 1))) in
        let y := x - k in
        let! (x, y) := diag_loop (Z.to_nat (len a - x)) a b x y in
        let! V := set_ V (k + offset) x in
        if (x =? len a) && (y =? len b) then Some (V, true)
        else k_loop f a b d offset V (k + 2)
      else Some (V, false)
  end.

(** The loop [for d := 0; d <= N+M; d++]; falling out of it is
    [return nil, 0]. *)
Fixpoint d_loop (fuel : nat) (a b : list gostring) (offset : Z)
    (V : list Z) (trace : list (list Z)) (d : Z)
    : option (list (list Z) * Z) :=
  match fuel with
  | O => Some ([], 0)
  | S f =>
      if d <=? len b + len a then
        let copyV := make 0 (len V) in
        let! (V, reached) := k_loop (Z.to_nat (d + 1)) a b d offset V (- d) in
        let copyV := copy copyV V in
        let! trace := set_ trace d copyV in
        if reached then Some (trace, offset)
        else d_loop f a b offset V trace (d + 1)
      else Some ([], 0)
  end.

Definition shortestEditSequence (a b : list gostring)
    : option (list (list Z) * Z) :=
  let M := len a in
  let N := len b in
  let V := make 0 (2 * (N + M) + 1) in
  let offset := N + M in
  let trace := make ([] : list Z) (N + M + 1) in
  d_loop (Z.to_nat (N + M + 1)) a b offset V trace 0.

(** ** [backtrack]

    The version on unbounded integers, for the trace and the end point
    that [Operations] passes; [backtrack64] below is the version for
    arbitrary arguments. *)

Record btstate := mkBt {
  bt_snakes : list (list Z);
  bt_x : Z;
  bt_y : Z;
  bt_d : Z
}.

(** The loop condition [x > 0 && y > 0 && d > 0]. *)
Definition bt_cond (s : btstate) : bool :=
  (0 <? bt_x s) && (0 <? bt_y s) && (0 <? bt_d s).

(** One execution of the loop body followed by [d--]. *)
Definition bt_body (trace : list (list Z)) (offset : Z) (s : btstate)
    : option btstate :=
  let '(mkBt snakes x y d) := s in
  let! V := at_ trace d in
  if len V =? 0 then Some (mkBt snakes x y (d - 1))
  else
    let! snakes := set_ snakes d [x; y] in
    let k := x - y in
    let! down := goesDown V k d offset in
    let kPrev := if down then k + 1 else k - 1 in
    let! x := at_ V (kPrev + offset) in
    let y := x - kPrev in
    Some (mkBt snakes x y (d - 1)).

Fixpoint bt_loop (fuel : nat) (trace : list (list Z)) (offset : Z)
    (s : btstate) : option btstate :=
  match fuel with
  | O => Some s
  | S f =>
      if bt_cond s then
        let! s := bt_body trace offset s in
        bt_loop f trace offset s
      else Some s
  end.

(** What follows the loop. *)
Definition bt_finish (s : btstate) : option (list (list Z)) :=
  let '(mkBt snakes x y d) := s in
  if (x <? 0) || (y <? 0) then Some snakes
  else set_ snakes d [x; y].

Definition bt_init (trace : list (list Z)) (x y : Z) : btstate :=
  mkBt (make [] (len trace)) x y (len trace - 1).

Definition backtrack (trace : list (list Z)) (x y offset : Z)
    : option (list (list Z)) :=
  let s := bt_init trace x y in
  let! s := bt_loop (Z.to_nat (bt_d s)) trace offset s in
  bt_finish s.

(** ** [Operations] *)

(** The closure [add]; [solution[:i]] is the list of the [i] pointers
    stored so far, and [cap] is [len(solution)]. *)
Definition add (b : list gostring) (cap : Z) (solution : list Op)
    (op : option Op) (i2 j2 : Z) : option (list Op) :=
  match op with
  | None => Some solution
  | Some op =>
      let op := mkOp (Kind op) (Content op) (I1 op) i2 (J1 op) in
      let! op := (match Kind op with
                  | Insert =>
                      let! c := slice b (J1 op) j2 in
                      Some (mkOp (Kind op) c (I1 op) (I2 op) (J1 op))
                  | _ => Some op
                  end) in
      if len solution <? cap then Some (solution ++ [op]) else None
  end.

(** [for snake[0]-snake[1] > x-y { ...; x++; if x == M { break } }] *)
Fixpoint del_loop (fuel : nat) (s0 s1 M : Z) (op : option Op) (x y : Z)
    : option Op * Z :=
  match fuel with
  | O => (op, x)
  | S f =>
      if x - y <? s0 - s1 then
        let op := match op with
                  | None => Some (mkOp Delete [] x 0 y)
                  | Some _ => op
                  end in
        let x := x + 1 in
        if x =? M then (op, x) else del_loop f s0 s1 M op x y
      else (op, x)
  end.

(** [for snake[0]-snake[1] < x-y { ...; y++ }] *)
Fixpoint ins_loop (fuel : nat) (s0 s1 : Z) (op : option Op) (x y : Z)
    : option Op * Z :=
  match fuel with
  | O => (op, y)
  | S f =>
      if s0 - s1 <? x - y then
        let op := match op with
                  | None => Some (mkOp Insert [] x 0 y)
                  | Some _ => op
                  end in
        ins_loop f s0 s1 op x (y + 1)
      else (op, y)
  end.

(** [for x < snake[0] { x++; y++ }] *)
Fixpoint eq_loop (fuel : nat) (s0 : Z) (x y : Z) : Z * Z :=
  match fuel with
  | O => (x, y)
  | S f => if x <? s0 then eq_loop f s0 (x + 1) (y + 1) else (x, y)
  end.

(** [for _, snake := range snakes] *)
Fixpoint ops_loop (b : list gostring) (M N : Z) (snakes : list (list Z))
    (solution : list Op) (x y : Z) : option (list Op) :=
  match snakes with
  | [] => Some solution
  | snake :: rest =>
      if len snake <? 2 then ops_loop b M N rest solution x y
      else
        let! s0 := at_ snake 0 in
        let! s1 := at_ snake 1 in
        let '(op, x) :=
          del_loop (Z.to_nat (s0 - s1 - (x - y))) s0 s1 M None x y in
        let! solution := add b (M + N) solution op x y in
        let '(op, y) :=
          ins_loop (Z.to_nat (x - y - (s0 - s1))) s0 s1 None x y in
        let! solution := add b (M + N) solution op x y in
        let '(x, y) := eq_loop (Z.to_nat (s0 - x)) s0 x y in
        if (M <=? x) && (N <=? y) then Some solution
        else ops_loop b M N rest solution x y
  end.

Definition Operations (a b : list gostring) : option (list Op) :=
  let! (trace, offset) := shortestEditSequence a b in
  let! snakes := backtrack trace (len a) (len b) offset in
  ops_loop b (len a) (len b) snakes [] 0 0.

(** ** Test data *)

Definition str (s : string) : gostring := list_ascii_of_string s.
Definition line (s : string) : gostring := str s ++ [LF].
Definition crlf (s : string) : gostring := str s ++ [CR; LF].

(** ** Specification-level definitions *)

(** What [stringEqualIgnoreLF] compares: the length it keeps of a line
    (the line without its last byte, and without a carriage return before
    it) and the bytes within that length. *)
Definition keptLen (a : gostring) : Z :=
  let la := len a - 1 in
  if (0 <? la) && bool_decide (at_ a (la - 1) = Some CR) then la - 1 else la.

Definition lineKey (a : gostring) : Z * gostring :=
  (keptLen a, take (Z.to_nat (keptLen a)) a).

Definition lineEq (a b : gostring) : bool :=
  bool_decide (lineKey a = lineKey b).

(** The contract of the comparer in the words of the specification: a line
    without exactly one trailing terminator, the terminator being a
    line feed or a carriage return followed by a line feed. *)
Definition stripTerminator (s : gostring) : gostring :=
  match rev s with
  | l :: c :: r =>
      if Ascii.eqb l LF then
        if Ascii.eqb c CR then rev r else rev (c :: r)
      else s
  | [l] => if Ascii.eqb l LF then [] else s
  | [] => s
  end.

Definition endsWithLF (s : gostring) : Prop := exists c, s = c ++ [LF].

(** A well-formed line of [SplitLines]: not empty, with a line feed at its
    end or nowhere. *)
Definition noLF (s : gostring) : Prop := Forall (fun c => c <> LF) s.
Definition closedLine (s : gostring) : Prop := exists c, s = c ++ [LF] /\ noLF c.
Definition openLine (s : gostring) : Prop := s <> [] /\ noLF s.

(** Lines of [a] and [b] that the comparer takes for equal. *)
Definition eqAt (a b : list gostring) (x y : Z) : bool :=
  match at_ a x, at_ b y with
  | Some s, Some t => lineEq s t
  | _, _ => false
  end.

(** The edit graph: [Reach a b d x y] when the point [(x, y)] is reached
    from the origin by [d] horizontal or vertical moves and any number of
    diagonal moves over equal lines. *)
Inductive Reach (a b : list gostring) : nat -> Z -> Z -> Prop :=
  | reach_origin : Reach a b 0 0 0
  | reach_diag d x y :
      Reach a b d x y -> eqAt a b x y = true -> Reach a b d (x + 1) (y + 1)
  | reach_right d x y : Reach a b d x y -> Reach a b (S d) (x + 1) y
  | reach_down d x y : Reach a b d x y -> Reach a b (S d) x (y + 1).

(** Edit scripts over lines: [Script a b d] when [a] becomes [b] by
    deleting and inserting [d] lines in all, lines equal for the comparer
    being kept. *)
Inductive Script : list gostring -> list gostring -> nat -> Prop :=
  | script_nil : Script [] [] 0
  | script_keep s t a b d :
      lineEq s t = true -> Script a b d -> Script (s :: a) (t :: b) d
  | script_delete s a b d : Script a b d -> Script (s :: a) b (S d)
  | script_insert t a b d : Script a b d -> Script a (t :: b) (S d).

Definition editDistance (a b : list gostring) (D : nat) : Prop :=
  Script a b D /\ forall d, Script a b d -> (D <= d)%nat.

(** The edit distance computed by recursion over the two sequences. *)
Fixpoint lineDistance (a b : list gostring) : nat :=
  match a with
  | [] => length b
  | s :: a' =>
      (fix row (b : list gostring) : nat :=
         match b with
         | [] => length a
         | t :: b' =>
             let d := S (Nat.min (lineDistance a' b) (row b')) in
             if lineEq s t then Nat.min (lineDistance a' b') d else d
         end) b
  end.

(** The end of the run of diagonal moves that starts at [(x, y)]. *)
Fixpoint extend (fuel : nat) (a b : list gostring) (x y : Z) : Z :=
  match fuel with
  | O => x
  | S f => if eqAt a b x y then extend f a b (x + 1) (y + 1) else x
  end.

Definition snakeEnd (a b : list gostring) (k x : Z) : Z :=
  extend (Z.to_nat (len a - x)) a b x (x - k).

(** The diagonals written at depth [d]: [-d, -d+2, ..., d]. *)
Definition onDiag (d k : Z) : bool :=
  (- d <=? k) && (k <=? d) && Z.even (k + d).

(** The start of the snake on diagonal [k] at depth [d], from the
    furthest points [f] of the depth before. *)
Definition pick (d k : Z) (f : Z -> Z) : Z :=
  if (k =? - d) || (negb (k =? d) && (f (k - 1) <? f (k + 1)))
  then f (k + 1) else f (k - 1) + 1.

(** [reachV a b n k]: the content of [V] for diagonal [k] when the search
    enters depth [n]. *)
Fixpoint reachV (a b : list gostring) (n : nat) : Z -> Z :=
  match n with
  | O => fun _ => 0
  | S n' => fun k =>
      if onDiag (Z.of_nat n') k
      then snakeEnd a b k (pick (Z.of_nat n') k (reachV a b n'))
      else reachV a b n' k
  end.

(** The value the search stores at depth [n] for diagonal [k]. *)
Definition furthest (a b : list gostring) (n : nat) (k : Z) : Z :=
  reachV a b (S n) k.

(** The search stops at depth [n] when the value stored for the diagonal
    of the end point is the end point. *)
Definition hitAt (a b : list gostring) (n : nat) : Prop :=
  onDiag (Z.of_nat n) (len a - len b) = true /\
  furthest a b n (len a - len b) = len a.

(** The slice [V] holds [f k] for every diagonal [k] of the search. *)
Definition holds (offset : Z) (V : list Z) (f : Z -> Z) : Prop :=
  len V = 2 * offset + 1 /\
  forall k, - offset <= k <= offset -> at_ V (k + offset) = Some (f k).

(** The content of [V] inside depth [n], the diagonals below [kmax] being
    written. *)
Definition partialV (a b : list gostring) (n : nat) (kmax : Z) : Z -> Z :=
  fun k =>
    if onDiag (Z.of_nat n) k && (k <? kmax) then furthest a b n k
    else reachV a b n k.

(** What [backtrack] reads of the snapshot of depth [n]: the values left
    by the depth before, on the diagonals that depth [n] does not write. *)
Definition snapshot (a b : list gostring) (offset : Z) (n : nat)
    (T : list Z) : Prop :=
  len T = 2 * offset + 1 /\
  forall k, - offset <= k <= offset -> (k + Z.of_nat n) mod 2 <> 0 ->
            at_ T (k + offset) = Some (reachV a b n k).

(** The trace of a search that stops at depth [D]. *)
Definition traceOf (a b : list gostring) (D : nat) (trace : list (list Z))
    : Prop :=
  let offset := len b + len a in
  len trace = offset + 1 /\
  (forall n, (n <= D)%nat ->
     exists T, at_ trace (Z.of_nat n) = Some T /\ snapshot a b offset n T) /\
  (forall i, Z.of_nat D < i <= offset -> at_ trace i = Some []).

(** One segment of the path that [backtrack] hands to [Operations]: from
    [(x, y)], [nd] deletions or [ni] insertions, then equal lines up to
    [(x', y')]. *)
Definition segment (a b : list gostring) (x y nd ni x' y' : Z) : Prop :=
  0 <= nd /\ 0 <= ni /\ (nd = 0 \/ ni = 0) /\
  x' - y' = x - y + nd - ni /\ x + nd <= x' /\
  forall i, x + nd <= i < x' -> eqAt a b i (i - (x' - y')) = true.

(** The snakes from [(x, y)] to the end point, with the number of lines
    deleted and inserted on the way. *)
Fixpoint chain (a b : list gostring) (x y : Z) (pts : list (list Z))
    (cost : Z) : Prop :=
  match pts with
  | [] => x = len a /\ y = len b /\ cost = 0
  | p :: rest =>
      exists x' y' nd ni,
        p = [x'; y'] /\ segment a b x y nd ni x' y' /\
        x' <= len a /\ y' <= len b /\
        (rest <> [] -> x' + y' < len a + len b) /\
        chain a b x' y' rest (cost - nd - ni)
  end.

(** The invariant of the loop of [backtrack] on the trace of a search that
    stopped at depth [D]: above [D] nothing is recorded yet; from [D] down
    the walk is on a stored furthest point and the snakes recorded so far
    lead from it to the end point. *)
Definition btInv (a b : list gostring) (D : nat) (s : btstate) : Prop :=
  let offset := len b + len a in
  (Z.of_nat D < bt_d s <= offset /\ bt_x s = len a /\ bt_y s = len b /\
   bt_snakes s = make [] (offset + 1)) \/
  (exists (n : nat) (pts : list (list Z)),
     bt_d s = Z.of_nat n /\ (n <= D)%nat /\
     onDiag (Z.of_nat n) (bt_x s - bt_y s) = true /\
     bt_x s = furthest a b n (bt_x s - bt_y s) /\
     bt_x s <= len a /\ bt_y s <= len b /\
     (pts <> [] -> bt_x s + bt_y s < len a + len b) /\
     chain a b (bt_x s) (bt_y s) pts (Z.of_nat D - Z.of_nat n) /\
     bt_snakes s =
       replicate (S n) [] ++ pts ++ replicate (Z.to_nat offset - D) []).

(** Two sequences of the same length whose lines are pairwise equal for
    the comparer. *)
Definition linesEq (l1 l2 : list gostring) : Prop :=
  Forall2 (fun s t => lineEq s t = true) l1 l2.

(** The elements of [l] from index [lo] up to [hi]. *)
Definition span {A} (l : list A) (lo hi : Z) : list A :=
  take (Z.to_nat (hi - lo)) (drop (Z.to_nat lo) l).

(** The operation that [Operations] emits for a segment from [(x, y)] with
    [nd] deletions or [ni] insertions. *)
Definition segOps (b : list gostring) (x y nd ni : Z) : list Op :=
  if 0 <? nd then [mkOp Delete [] x (x + nd) y]
  else if 0 <? ni then [mkOp Insert (span b y (y + ni)) x x y]
  else [].

(** The operations of a list of snakes walked from [(x, y)]. *)
Fixpoint chainOps (b : list gostring) (x y : Z) (pts : list (list Z))
    : list Op :=
  match pts with
  | [] => []
  | [x'; y'] :: rest =>
      segOps b x y (Z.max 0 (x' - y' - (x - y))) (Z.max 0 (x - y - (x' - y')))
      ++ chainOps b x' y' rest
  | _ :: rest => chainOps b x y rest
  end.

(** The forward search stored its last snapshot at depth [d]. *)
Definition stopsAt (trace : list (list Z)) (d : nat) : Prop :=
  (exists T, at_ trace (Z.of_nat d) = Some T /\ T <> []) /\
  forall i T, Z.of_nat d < i -> at_ trace i = Some T -> T = [].

(** ** [backtrack] on arbitrary traces

    On the traces of the forward search every integer that [backtrack]
    computes lies between [-(N+M+1)] and [N+M+1].  On an arbitrary trace
    the subtractions and additions of the loop body can leave the range of
    [int]; Go then wraps them around, which the following version spells
    out for the 64-bit [int]. *)

(** The value of an [int] expression whose exact result is [z]. *)
Definition wrap (z : Z) : Z := (z + 2 ^ 63) mod 2 ^ 64 - 2 ^ 63.

Definition goesDown64 (V : list Z) (k d offset : Z) : option bool :=
  if k =? wrap (- d) then Some true
  else if negb (k =? d) then
    let! l := at_ V (wrap (wrap (k - 1) + offset)) in
    let! r := at_ V (wrap (wrap (k + 1) + offset)) in
    Some (l <? r)
  else Some false.

Definition bt_body64 (trace : list (list Z)) (offset : Z) (s : btstate)
    : option btstate :=
  let '(mkBt snakes x y d) := s in
  let! V := at_ trace d in
  if len V =? 0 then Some (mkBt snakes x y (wrap (d - 1)))
  else
    let! snakes := set_ snakes d [x; y] in
    let k := wrap (x - y) in
    let! down := goesDown64 V k d offset in
    let kPrev := if down then wrap (k + 1) else wrap (k - 1) in
    let! x := at_ V (wrap (kPrev + offset)) in
    let y := wrap (x - kPrev) in
    Some (mkBt snakes x y (wrap (d - 1))).

Fixpoint bt_loop64 (fuel : nat) (trace : list (list Z)) (offset : Z)
    (s : btstate) : option btstate :=
  match fuel with
  | O => Some s
  | S f =>
      if bt_cond s then
        let! s := bt_body64 trace offset s in
        bt_loop64 f trace offset s
      else Some s
  end.

Definition bt_init64 (trace : list (list Z)) (x y : Z) : btstate :=
  mkBt (make [] (len trace)) x y (wrap (len trace - 1)).

Definition backtrack64 (trace : list (list Z)) (x y offset : Z)
    : option (list (list Z)) :=
  let s := bt_init64 trace x y in
  let! s := bt_loop64 (Z.to_nat (bt_d s)) trace offset s in
  bt_finish s.

(** The state of [backtrack64] after [n] executions of its loop body,
    when the loop runs that long. *)
Fixpoint bt_iter64 (n : nat) (trace : list (list Z)) (offset : Z)
    (s : btstate) : option btstate :=
  match n with
  | O => Some s
  | S n' =>
      if bt_cond s then
        let! s' := bt_body64 trace offset s in bt_iter64 n' trace offset s'
      else None
  end.

(** An integer far enough from the ends of the range of [int] for the
    few additions of one loop body to stay inside it. *)
Definition smallInt (z : Z) : Prop := - 2 ^ 60 <= z <= 2 ^ 60.

(** The lines an operation list deletes and inserts. *)
Definition opLines (op : Op) : Z :=
  match Kind op with
  | Delete => I2 op - I1 op
  | Insert => len (Content op)
  | Equal => 0
  end.

Definition editCount (ops : list Op) : Z :=
  foldr (fun op n => opLines op + n) 0 ops.

(** Operations in ascending order with disjoint source ranges: every
    range is well formed and ends where the next one starts or before. *)
Fixpoint ordered (lo : Z) (ops : list Op) : Prop :=
  match ops with
  | [] => True
  | op :: rest => lo <= I1 op /\ I1 op <= I2 op /\ ordered (I2 op) rest
  end.

(** ** [myOperations] *)

(** [solution[i] = op; i++] on a slice of [cap] entries of which
    [solution] lists the ones stored so far. *)
Definition store (cap : Z) (solution : list Op) (op : Op)
    : option (list Op) :=
  if len solution <? cap then Some (solution ++ [op]) else None.

(** [for ; aIdx < M; aIdx++ { if stringEqualIgnoreLF(bContent, a[aIdx]) { break } }] *)
Fixpoint scan_loop (fuel : nat) (a : list gostring) (bContent : gostring)
    (aIdx : Z) : option Z :=
  match fuel with
  | O => Some aIdx
  | S f =>
      if aIdx <? len a then
        let! s := at_ a aIdx in
        let! e := stringEqualIgnoreLF bContent s in
        if e then Some aIdx else scan_loop f a bContent (aIdx + 1)
      else Some aIdx
  end.

(** [for bIdx, bContent := range b]; [rest] is what is left of [b] from
    index [bIdx] on. *)
Fixpoint my_loop (a b rest : list gostring) (bIdx : Z) (solution : list Op)
    (aIdx : Z) : option (list Op) :=
  match rest with
  | [] => Some solution
  | bContent :: rest' =>
      let M := len a in
      let cap := len a + len b in
      let! differs := (if aIdx <? M then
                         let! s := at_ a aIdx in
                         let! e := stringEqualIgnoreLF bContent s in
                         Some (negb e)
                       else Some false) in
      let! (solution, aIdx) :=
        (if differs then
           let prv := aIdx in
           let! aIdx := scan_loop (Z.to_nat (M - aIdx)) a bContent aIdx in
           let! solution := store cap solution (mkOp Delete [] prv aIdx 0) in
           Some (solution, aIdx)
         else Some (solution, aIdx)) in
      if M <=? aIdx then
        let! c := slice b bIdx (len b) in
        store cap solution (mkOp Insert c bIdx bIdx bIdx)
      else my_loop a b rest' (bIdx + 1) solution (aIdx + 1)
  end.

Definition myOperations (a b : list gostring) : option (list Op) :=
  my_loop a b b 0 [] 0.

(** ** More specification-level definitions *)

(** The shape of an operation that [Operations] returns for the source
    [a] and the target [b]. *)
Definition wellFormedOp (a b : list gostring) (op : Op) : Prop :=
  match Kind op with
  | Delete =>
      Content op = [] /\ 0 <= I1 op /\ I1 op < I2 op /\ I2 op <= len a /\
      0 <= J1 op <= len b
  | Insert =>
      I1 op = I2 op /\ 0 <= I1 op <= len a /\ Content op <> [] /\
      slice b (J1 op) (J1 op + len (Content op)) = Some (Content op)
  | Equal => False
  end.

(** The source lines that the ranges of an operation list skip, and the
    lines its operations bring. *)
Definition skipped (ops : list Op) : Z :=
  foldr (fun op n => I2 op - I1 op + n) 0 ops.

Definition brought (ops : list Op) : Z :=
  foldr (fun op n => match Kind op with
                     | Delete => n
                     | Insert | Equal => len (Content op) + n
                     end) 0 ops.

(** A line that ends with a line feed and has no carriage return before
    it. *)
Definition unixLine (s : gostring) : Prop :=
  exists c, s = c ++ [LF] /\ forall c', c <> c' ++ [CR].

(** An entry of the snake array: unused, or a point. *)
Definition snakeEntry (s : list Z) : Prop :=
  s = [] \/ exists u v, s = [u; v].

(** A text in Unix form: no carriage return, and a line feed at the end
    unless the text is empty. *)
Definition unixText (t : gostring) : Prop :=
  (t = [] \/ endsWithLF t) /\ Forall (fun c => c <> CR) t.

(** * Proofs *)

(** Linear arithmetic with the parity of diagonals. *)
Ltac zlia := Z.to_euclidean_division_equations; lia.

(** ** Slices *)

Lemma len_nonneg {A} (l : list A) : 0 <= len l.
Proof. unfold len. lia. Qed.

Lemma len_app {A} (l k : list A) : len (l ++ k) = len l + len k.
Proof. unfold len. rewrite length_app. lia. Qed.

Lemma len_cons {A} (x : A) (l : list A) : len (x :: l) = len l + 1.
Proof. unfold len. simpl. lia. Qed.

Lemma at_Some {A} (l : list A) (i : Z) (x : A) :
  at_ l i = Some x <-> 0 <= i /\ l !! Z.to_nat i = Some x.
Proof.
  unfold at_. destruct (Z.ltb_spec i 0); split;
    [done | intros [? _]; lia | intros; split; [lia | done] | by intros [_ ?]].
Qed.

Lemma at_in_range {A} (l : list A) (i : Z) :
  0 <= i < len l -> exists x, at_ l i = Some x.
Proof.
  intros H. unfold at_. destruct (Z.ltb_spec i 0); [lia|].
  destruct (lookup_lt_is_Some_2 l (Z.to_nat i)) as [x Hx];
    [unfold len in H; lia | eauto].
Qed.

Lemma at_range {A} (l : list A) (i : Z) (x : A) :
  at_ l i = Some x -> 0 <= i < len l.
Proof.
  intros [H1 H2]%at_Some. apply lookup_lt_Some in H2. unfold len. lia.
Qed.

Lemma at_of_nat {A} (l : list A) (n : nat) : at_ l (Z.of_nat n) = l !! n.
Proof.
  unfold at_. destruct (Z.ltb_spec (Z.of_nat n) 0); [lia|].
  by rewrite Nat2Z.id.
Qed.

Lemma at_app_l {A} (l k : list A) (i : Z) :
  i < len l -> at_ (l ++ k) i = at_ l i.
Proof.
  intros H. unfold at_. destruct (Z.ltb_spec i 0); [done|].
  apply lookup_app_l. unfold len in H. lia.
Qed.

Lemma set_in_range {A} (l : list A) (i : Z) (v : A) :
  0 <= i < len l -> set_ l i v = Some (<[Z.to_nat i := v]> l).
Proof.
  intros H. unfold set_.
  destruct (Z.leb_spec 0 i); [|lia]. destruct (Z.ltb_spec i (len l)); [done|lia].
Qed.

Lemma slice_in_range {A} (l : list A) (lo hi : Z) :
  0 <= lo <= hi -> hi <= len l ->
  slice l lo hi = Some (take (Z.to_nat (hi - lo)) (drop (Z.to_nat lo) l)).
Proof.
  intros H1 H2. unfold slice.
  destruct (Z.leb_spec 0 lo); [|lia]. destruct (Z.leb_spec lo hi); [|lia].
  destruct (Z.leb_spec hi (len l)); [done|lia].
Qed.

Lemma slice_all {A} (l : list A) : slice l 0 (len l) = Some l.
Proof.
  rewrite slice_in_range by (pose proof (len_nonneg l); lia).
  simpl. f_equal. rewrite drop_0. apply take_ge. unfold len. lia.
Qed.

Lemma copy_same_length {A} (dst src : list A) :
  length dst = length src -> copy dst src = src.
Proof.
  intros H. unfold copy. rewrite H, take_ge, drop_ge by lia.
  apply app_nil_r.
Qed.

Lemma length_make {A} (z : A) (n : Z) : length (make z n) = Z.to_nat n.
Proof. apply length_replicate. Qed.

(** ** The line comparer *)

Lemma keptLen_range (a : gostring) : -1 <= keptLen a <= len a - 1.
Proof.
  unfold keptLen. pose proof (len_nonneg a).
  destruct (_ && _) eqn:E; [apply andb_true_iff in E as [E%Z.ltb_lt _]|]; lia.
Qed.

Lemma dropCR_keptLen (a : gostring) : dropCR a (len a - 1) = Some (keptLen a).
Proof.
  unfold dropCR, keptLen. destruct (Z.ltb_spec 0 (len a - 1)) as [H|H]; [|done].
  destruct (at_in_range a (len a - 1 - 1)) as [c Hc]; [lia|].
  rewrite Hc. simpl. f_equal.
  destruct (Ascii.eqb_spec c CR) as [->|Hne].
  - by rewrite bool_decide_eq_true_2.
  - rewrite bool_decide_eq_false_2; [done | congruence].
Qed.

Lemma cmp_loop_spec (a b : gostring) (la : Z) (fuel : nat) (i : Z) :
  0 <= i -> la < len a -> la < len b -> (Z.to_nat (la - i) <= fuel)%nat ->
  exists r, cmp_loop fuel a b la i = Some r /\
    (r = true <-> forall j, i <= j < la -> at_ a j = at_ b j).
Proof.
  revert i. induction fuel as [|fuel IH]; intros i Hi Ha Hb Hf; simpl.
  - exists true. split; [done|]. split; [intros _ j Hj; lia | done].
  - destruct (Z.ltb_spec i la) as [Hlt|Hge].
    + destruct (at_in_range a i) as [x Hx]; [lia|].
      destruct (at_in_range b i) as [y Hy]; [lia|].
      rewrite Hx, Hy. destruct (Ascii.eqb_spec x y) as [->|Hne]; simpl.
      * destruct (IH (i + 1)) as (r & Hr & Hiff); [lia..|].
        exists r. split; [done|]. rewrite Hiff. split; intros H j Hj.
        -- destruct (decide (j = i)) as [->|]; [congruence | apply H; lia].
        -- apply H. lia.
      * exists false. split; [done|]. split; [done|]. intros H.
        specialize (H i ltac:(lia)). congruence.
    + exists true. split; [done|]. split; [intros _ j Hj; lia | done].
Qed.

Lemma take_eq_pointwise (a b : gostring) (n : Z) :
  n < len a -> n < len b ->
  take (Z.to_nat n) a = take (Z.to_nat n) b <->
  forall j, 0 <= j < n -> at_ a j = at_ b j.
Proof.
  intros Ha Hb. unfold len in *. split.
  - intros H j Hj. unfold at_. destruct (Z.ltb_spec j 0); [lia|].
    rewrite <- (lookup_take_lt a (Z.to_nat n)), <- (lookup_take_lt b (Z.to_nat n))
      by lia.
    by rewrite H.
  - intros H. apply list_eq. intros i.
    destruct (decide (i < Z.to_nat n)%nat) as [Hi|Hi].
    + rewrite !lookup_take_lt by done.
      specialize (H (Z.of_nat i) ltac:(lia)). by rewrite !at_of_nat in H.
    + rewrite !lookup_take_ge by lia. done.
Qed.

(** The comparer never panics, and it decides equality of line keys. *)
Lemma stringEqualIgnoreLF_lineEq (a b : gostring) :
  stringEqualIgnoreLF a b = Some (lineEq a b).
Proof.
  unfold stringEqualIgnoreLF. rewrite !dropCR_keptLen.
  pose proof (keptLen_range a) as Ha. pose proof (keptLen_range b) as Hb.
  unfold lineEq, lineKey.
  destruct (Z.eqb_spec (keptLen a) (keptLen b)) as [Heq|Hne]; simpl.
  - destruct (cmp_loop_spec a b (keptLen a) (Z.to_nat (keptLen a)) 0)
      as (r & Hr & Hiff); [lia..|].
    rewrite Hr. f_equal. rewrite <- Heq.
    destruct r.
    + symmetry. apply bool_decide_eq_true_2. f_equal.
      destruct (decide (0 <= keptLen a)).
      * apply take_eq_pointwise; [lia..|]. by apply Hiff.
      * by replace (Z.to_nat (keptLen a)) with 0%nat by lia.
    + symmetry. apply bool_decide_eq_false_2. intros [= H].
      assert (false = true); [|done]. apply Hiff.
      destruct (decide (0 <= keptLen a)).
      * apply take_eq_pointwise; [lia..|done].
      * intros j Hj. lia.
  - f_equal. symmetry. apply bool_decide_eq_false_2. congruence.
Qed.

Lemma lineEq_refl (a : gostring) : lineEq a a = true.
Proof. by apply bool_decide_eq_true_2. Qed.

Lemma lineEq_sym (a b : gostring) : lineEq a b = lineEq b a.
Proof. unfold lineEq. apply bool_decide_ext. split; congruence. Qed.

Lemma lineEq_trans (a b c : gostring) :
  lineEq a b = true -> lineEq b c = true -> lineEq a c = true.
Proof.
  unfold lineEq. rewrite !bool_decide_eq_true. congruence.
Qed.

Lemma lineKey_snoc (a : gostring) (c : ascii) :
  lineKey (a ++ [c]) =
  let n := if (0 <? len a) && bool_decide (at_ a (len a - 1) = Some CR)
           then len a - 1 else len a in
  (n, take (Z.to_nat n) a).
Proof.
  unfold lineKey, keptLen. rewrite len_app.
  replace (len a + len [c] - 1) with (len a) by (unfold len; simpl; lia).
  pose proof (len_nonneg a) as Hn.
  destruct (Z.ltb_spec 0 (len a)) as [Hpos|Hpos]; simpl.
  - rewrite at_app_l by lia.
    destruct (bool_decide _); f_equal; apply take_app_le; unfold len in *; lia.
  - f_equal. apply take_app_le. unfold len in *; lia.
Qed.

Lemma stripTerminator_LF (c : gostring) :
  lineKey (c ++ [LF]) =
  (len (stripTerminator (c ++ [LF])), stripTerminator (c ++ [LF])).
Proof.
  rewrite lineKey_snoc. unfold stripTerminator. rewrite rev_app_distr. simpl.
  destruct c as [|c0 c'] using rev_ind; simpl; [done|].
  rewrite rev_app_distr. simpl. rewrite rev_involutive.
  rewrite len_app. replace (len [c0]) with 1 by done.
  pose proof (len_nonneg c') as Hn.
  replace (len c' + 1 - 1) with (len c') by lia.
  assert (Hat : at_ (c' ++ [c0]) (len c') = Some c0).
  { unfold len. rewrite at_of_nat. by apply list_lookup_middle. }
  rewrite Hat. destruct (Z.ltb_spec 0 (len c' + 1)); [|lia]. simpl.
  destruct (Ascii.eqb_spec c0 CR) as [->|Hne].
  - rewrite bool_decide_eq_true_2 by done. f_equal.
    apply take_app_length'. unfold len. lia.
  - rewrite bool_decide_eq_false_2 by congruence.
    f_equal; [rewrite len_app; done|]. apply take_ge.
    rewrite length_app. simpl. unfold len. lia.
Qed.

(** On lines that end with a line feed the comparer decides the equality
    of the lines without their terminators. *)
Lemma lineEq_terminated (s t : gostring) :
  endsWithLF s -> endsWithLF t ->
  lineEq s t = true <-> stripTerminator s = stripTerminator t.
Proof.
  intros [cs ->] [ct ->]. unfold lineEq.
  rewrite bool_decide_eq_true, !stripTerminator_LF. split.
  - by intros [= _ H].
  - by intros ->.
Qed.

(** ** Splitting into lines *)

Lemma SplitAfterLF_shape (text : gostring) :
  exists init lst, SplitAfterLF text = init ++ [lst] /\
    Forall closedLine init /\ noLF lst /\ concat init ++ lst = text.
Proof.
  induction text as [|c rest (init & lst & HS & Hinit & Hlst & Hcat)]; simpl.
  - exists [], []. repeat split; [constructor | constructor].
  - destruct (Ascii.eqb_spec c LF) as [->|Hne].
    + exists ([LF] :: init), lst. rewrite HS. repeat split; try done.
      * constructor; [|done]. exists []. split; [done | constructor].
      * simpl. by rewrite Hcat.
    + rewrite HS. destruct init as [|i0 init]; simpl.
      * exists [], (c :: lst). simpl in Hcat. subst rest.
        repeat split; [constructor | by constructor].
      * inversion Hinit as [|? ? (c0 & -> & Hc0) Hrest]; subst.
        exists ((c :: c0 ++ [LF]) :: init), lst. repeat split; try done.
        constructor; [|done]. exists (c :: c0). split; [done|].
        by constructor.
Qed.

Lemma SplitLines_shape (text : gostring) :
  exists init lst, SplitAfterLF text = init ++ [lst] /\
    Forall closedLine init /\ noLF lst /\ concat init ++ lst = text /\
    SplitLines text = Some (if bool_decide (lst = []) then init
                            else init ++ [lst]).
Proof.
  destruct (SplitAfterLF_shape text) as (init & lst & HS & Hinit & Hlst & Hcat).
  exists init, lst. repeat split; try done.
  unfold SplitLines. rewrite HS.
  assert (Hlen : len (init ++ [lst]) - 1 = len init).
  { rewrite len_app. unfold len. simpl. lia. }
  rewrite Hlen. unfold len at 1. rewrite at_of_nat, list_lookup_middle by done.
  destruct (bool_decide (lst = [])); [|done].
  pose proof (len_nonneg init).
  rewrite slice_in_range by (rewrite ?len_app; unfold len in *; simpl; lia).
  f_equal. simpl. rewrite drop_0. apply take_app_length'. unfold len. lia.
Qed.

(** C7. [SplitLines] never panics and returns the lines of the text in
    order: every line but possibly the last ends with its line feed and has
    no other, a last line without line feed is kept when it is not empty,
    and the empty fragment after a final line feed is dropped.  The two
    examples of the specification evaluate as stated. *)
Theorem SplitLines_lines :
  (forall text : gostring, exists init rest,
      SplitLines text = Some (init ++ rest) /\
      concat (init ++ rest) = text /\
      Forall closedLine init /\
      (rest = [] \/ exists l, rest = [l] /\ openLine l)) /\
  SplitLines (str "a" ++ [LF] ++ str "b" ++ [LF]) = Some [line "a"; line "b"] /\
  SplitLines (str "a" ++ [LF] ++ str "b") = Some [line "a"; str "b"].
Proof.
  split; [|split; reflexivity].
  intros text.
  destruct (SplitLines_shape text) as (init & lst & _ & Hinit & Hlst & Hcat & HS).
  exists init. rewrite HS. case_bool_decide as Hl.
  - exists []. subst lst. rewrite !app_nil_r in *. auto.
  - exists [lst]. repeat split; try done.
    + rewrite concat_app. simpl. by rewrite app_nil_r.
    + right. exists lst. by repeat split.
Qed.

(** C9. Concatenating the lines returned by [SplitLines] gives the text
    back, and on the empty text [SplitLines] returns the empty sequence. *)
Theorem SplitLines_concat :
  (forall text : gostring, exists lines,
      SplitLines text = Some lines /\ concat lines = text) /\
  SplitLines [] = Some [].
Proof.
  split; [|reflexivity]. intros text.
  destruct (SplitLines_shape text) as (init & lst & _ & _ & _ & Hcat & HS).
  rewrite HS. eexists. split; [done|].
  case_bool_decide as Hl.
  - subst lst. by rewrite app_nil_r in Hcat.
  - rewrite concat_app. simpl. by rewrite app_nil_r.
Qed.

(** C10. Two lines of one byte each compare equal whatever the bytes, and
    the last byte of either line never takes part in the comparison. *)
Theorem stringEqualIgnoreLF_last_byte :
  (forall c d : ascii, stringEqualIgnoreLF [c] [d] = Some true) /\
  (forall (a b : gostring) (c1 c2 d1 d2 : ascii),
      stringEqualIgnoreLF (a ++ [c1]) (b ++ [d1]) =
      stringEqualIgnoreLF (a ++ [c2]) (b ++ [d2])).
Proof.
  split.
  - intros c d. rewrite stringEqualIgnoreLF_lineEq. done.
  - intros a b c1 c2 d1 d2. rewrite !stringEqualIgnoreLF_lineEq.
    unfold lineEq. by rewrite !lineKey_snoc.
Qed.

(** C3, as the code has it.  On lines that end with a line feed the
    comparer returns true exactly when the lines are identical once the
    terminator (a line feed, with the carriage return before it if there is
    one) is removed from each; and a content that does not end with a
    carriage return compares equal under its two terminators. *)
Theorem stringEqualIgnoreLF_terminated :
  (forall a b : gostring, endsWithLF a -> endsWithLF b ->
      (stringEqualIgnoreLF a b = Some true <->
       stripTerminator a = stripTerminator b)) /\
  (forall c : gostring, (forall c', c <> c' ++ [CR]) ->
      stringEqualIgnoreLF (c ++ [CR; LF]) (c ++ [LF]) = Some true).
Proof.
  assert (H : forall a b : gostring, endsWithLF a -> endsWithLF b ->
      (stringEqualIgnoreLF a b = Some true <->
       stripTerminator a = stripTerminator b)).
  { intros a b [ca ->] [cb ->]. rewrite stringEqualIgnoreLF_lineEq.
    unfold lineEq. rewrite !stripTerminator_LF. split.
    - intros [= H]. apply bool_decide_eq_true_1 in H. congruence.
    - intros ->. f_equal. by apply bool_decide_eq_true_2. }
  split; [exact H|]. intros c Hc.
  apply H; [by exists (c ++ [CR]); rewrite <- app_assoc | by exists c |].
  unfold stripTerminator.
  replace (c ++ [CR; LF]) with ((c ++ [CR]) ++ [LF]) by by rewrite <- app_assoc.
  rewrite !rev_app_distr. simpl. rewrite rev_involutive.
  destruct c as [|c0 c'] using rev_ind; [done|].
  rewrite rev_app_distr. simpl.
  destruct (Ascii.eqb_spec c0 CR) as [->|Hne]; [by destruct (Hc c')|].
  by rewrite rev_involutive.
Qed.

Lemma stringEqualIgnoreLF_terminated_witness :
  (stringEqualIgnoreLF (crlf "ab") (line "ab") = Some true <->
   stripTerminator (crlf "ab") = stripTerminator (line "ab")) /\
  stringEqualIgnoreLF (str "ab" ++ [CR; LF]) (str "ab" ++ [LF]) = Some true.
Proof.
  split.
  - apply (proj1 stringEqualIgnoreLF_terminated).
    + exists (str "ab" ++ [CR]). reflexivity.
    + exists (str "ab"). reflexivity.
  - apply (proj2 stringEqualIgnoreLF_terminated (str "ab")).
    intros c' Hc'. apply (f_equal (@rev ascii)) in Hc'.
    rewrite rev_app_distr in Hc'. discriminate Hc'.
Defined.

(** C3 as stated fails: two unterminated lines that differ compare equal,
    and a content ending with a carriage return does not compare equal
    under its two terminators. *)
Lemma stringEqualIgnoreLF_contract_fails :
  ~ (stringEqualIgnoreLF (str "a") (str "b") = Some true <->
     stripTerminator (str "a") = stripTerminator (str "b")) /\
  stringEqualIgnoreLF ([CR] ++ [CR; LF]) ([CR] ++ [LF]) <> Some true.
Proof.
  split.
  - intros [H _]. specialize (H eq_refl). discriminate H.
  - discriminate.
Qed.

(** ** The edit graph *)

Lemma onDiag_iff (d k : Z) :
  onDiag d k = true <-> - d <= k <= d /\ (k + d) mod 2 = 0.
Proof.
  unfold onDiag. rewrite !andb_true_iff, !Z.leb_le, Z.even_spec.
  split; intros [H1 H2]; (split; [lia|]).
  - destruct H2 as [m H2]. zlia.
  - exists ((k + d) / 2). zlia.
Qed.

Lemma onDiag_false (d k : Z) :
  onDiag d k = false <-> ~ (- d <= k <= d /\ (k + d) mod 2 = 0).
Proof. rewrite <- onDiag_iff. by destruct (onDiag d k). Qed.

Lemma least_witness (P : nat -> Prop) (dec : forall n, Decision (P n)) (n : nat) :
  P n -> exists D, (D <= n)%nat /\ P D /\ forall m, (m < D)%nat -> ~ P m.
Proof.
  intros Hn.
  assert (H : forall k, (forall m, (m < k)%nat -> ~ P m) \/
                        exists D, (D < k)%nat /\ P D /\
                                  forall m, (m < D)%nat -> ~ P m).
  { induction k as [|k [IH|IH]].
    - left. intros m Hm. lia.
    - destruct (dec k) as [Hk|Hk].
      + right. exists k. split; [lia|]. done.
      + left. intros m Hm. destruct (decide (m = k)) as [->|]; [done|].
        apply IH. lia.
    - right. destruct IH as (D & ? & ?). exists D. split; [lia | done]. }
  destruct (H n) as [Hlt|(D & ? & ?)].
  - exists n. split; [lia | done].
  - exists D. split; [lia | done].
Qed.

Section Graph.
Variables a b : list gostring.

Lemma eqAt_range (x y : Z) :
  eqAt a b x y = true -> 0 <= x < len a /\ 0 <= y < len b.
Proof.
  unfold eqAt. destruct (at_ a x) eqn:Ha; [|done].
  destruct (at_ b y) eqn:Hb; [|done].
  apply at_range in Ha. apply at_range in Hb. done.
Qed.

Lemma extend_spec (fuel : nat) (x y : Z) :
  (Z.to_nat (len a - x) <= fuel)%nat ->
  x <= extend fuel a b x y /\
  (forall i, x <= i < extend fuel a b x y ->
             eqAt a b i (i - (x - y)) = true) /\
  eqAt a b (extend fuel a b x y) (extend fuel a b x y - (x - y)) = false.
Proof.
  revert x y. induction fuel as [|fuel IH]; intros x y Hf; simpl.
  - split; [lia|]. split; [intros; lia|].
    destruct (eqAt a b x (x - (x - y))) eqn:E; [|done].
    apply eqAt_range in E. lia.
  - destruct (eqAt a b x y) eqn:E.
    + destruct (IH (x + 1) (y + 1)) as (H1 & H2 & H3); [lia|].
      replace (x + 1 - (y + 1)) with (x - y) in * by lia.
      split; [lia|]. split; [|done]. intros i Hi.
      destruct (decide (i = x)) as [->|]; [|apply H2; lia].
      by replace (x - (x - y)) with y by lia.
    + split; [lia|]. split; [intros; lia|].
      by replace (x - (x - y)) with y by lia.
Qed.

Lemma snakeEnd_spec (k x : Z) :
  x <= snakeEnd a b k x /\
  (forall i, x <= i < snakeEnd a b k x -> eqAt a b i (i - k) = true) /\
  eqAt a b (snakeEnd a b k x) (snakeEnd a b k x - k) = false.
Proof.
  unfold snakeEnd.
  pose proof (extend_spec (Z.to_nat (len a - x)) x (x - k)) as H.
  replace (x - (x - k)) with k in H by lia. apply H. lia.
Qed.

Lemma reach_extend (fuel : nat) (d : nat) (x y : Z) :
  Reach a b d x y ->
  Reach a b d (extend fuel a b x y) (y + (extend fuel a b x y - x)).
Proof.
  revert x y. induction fuel as [|fuel IH]; intros x y H; simpl.
  - by replace (y + (x - x)) with y by lia.
  - destruct (eqAt a b x y) eqn:E.
    + replace (y + (extend fuel a b (x + 1) (y + 1) - x))
        with (y + 1 + (extend fuel a b (x + 1) (y + 1) - (x + 1))) by lia.
      apply IH. by constructor.
    + by replace (y + (x - x)) with y by lia.
Qed.

Lemma reach_snakeEnd (d : nat) (k x : Z) :
  Reach a b d x (x - k) ->
  Reach a b d (snakeEnd a b k x) (snakeEnd a b k x - k).
Proof.
  intros H. unfold snakeEnd.
  apply (reach_extend (Z.to_nat (len a - x))) in H.
  match goal with H : Reach _ _ _ _ ?u |- Reach _ _ _ _ ?v =>
    by replace v with u by lia end.
Qed.

Lemma furthest_on (n : nat) (k : Z) :
  onDiag (Z.of_nat n) k = true ->
  furthest a b n k = snakeEnd a b k (pick (Z.of_nat n) k (reachV a b n)).
Proof. unfold furthest. simpl. by intros ->. Qed.

Lemma reachV_off (n : nat) (k : Z) :
  onDiag (Z.of_nat n) k = false -> reachV a b (S n) k = reachV a b n k.
Proof. simpl. by intros ->. Qed.

(** The three cases of [pick] at depth [n] on diagonal [k]. *)
Lemma pick_cases (n : nat) (k : Z) (f : Z -> Z) :
  (k = - Z.of_nat n /\ pick (Z.of_nat n) k f = f (k + 1)) \/
  (k <> - Z.of_nat n /\ k <> Z.of_nat n /\ f (k - 1) < f (k + 1) /\
   pick (Z.of_nat n) k f = f (k + 1)) \/
  (k <> - Z.of_nat n /\ (k = Z.of_nat n \/ f (k + 1) <= f (k - 1)) /\
   pick (Z.of_nat n) k f = f (k - 1) + 1).
Proof.
  unfold pick.
  destruct (Z.eqb_spec k (- Z.of_nat n)); [by left|]. simpl.
  destruct (Z.eqb_spec k (Z.of_nat n)); simpl; [right; right; auto|].
  destruct (Z.ltb_spec (f (k - 1)) (f (k + 1))); [right; left; auto|].
  right; right; auto.
Qed.

Lemma furthest_lower (n : nat) (k : Z) :
  onDiag (Z.of_nat n) k = true -> 0 <= furthest a b n k /\ k <= furthest a b n k.
Proof.
  revert k. induction n as [|n IH]; intros k Hk.
  - rewrite furthest_on by done. apply onDiag_iff in Hk.
    assert (k = 0) as -> by lia.
    pose proof (snakeEnd_spec 0 (pick (Z.of_nat 0) 0 (reachV a b 0))) as [H _].
    unfold pick in *. simpl in *. lia.
  - rewrite furthest_on by done.
    pose proof (snakeEnd_spec k (pick (Z.of_nat (S n)) k (reachV a b (S n)))) as [H _].
    apply onDiag_iff in Hk.
    assert (Hl : forall j, - Z.of_nat n <= j <= Z.of_nat n ->
               (j + Z.of_nat n) mod 2 = 0 ->
               0 <= reachV a b (S n) j /\ j <= reachV a b (S n) j).
    { intros j H1 H2. apply IH. apply onDiag_iff. done. }
    destruct (pick_cases (S n) k (reachV a b (S n)))
      as [(Hc & Hp)|[(Hc1 & Hc2 & Hc3 & Hp)|(Hc1 & Hc2 & Hp)]];
      rewrite Hp in *.
    + destruct (Hl (k + 1)); [zlia | zlia | lia].
    + destruct (Hl (k + 1)); [zlia | zlia | lia].
    + destruct (Hl (k - 1)); [zlia | zlia | lia].
Qed.

Lemma pick_source (n : nat) (k : Z) :
  onDiag (Z.of_nat (S n)) k = true ->
  let f := reachV a b (S n) in
  (pick (Z.of_nat (S n)) k f = f (k + 1) /\
   onDiag (Z.of_nat n) (k + 1) = true) \/
  (pick (Z.of_nat (S n)) k f = f (k - 1) + 1 /\
   onDiag (Z.of_nat n) (k - 1) = true).
Proof.
  intros Hk f. apply onDiag_iff in Hk.
  destruct (pick_cases (S n) k f)
    as [(Hc & Hp)|[(Hc1 & Hc2 & Hc3 & Hp)|(Hc1 & Hc2 & Hp)]].
  - left. split; [done|]. apply onDiag_iff. zlia.
  - left. split; [done|]. apply onDiag_iff. zlia.
  - right. split; [done|]. apply onDiag_iff. zlia.
Qed.

Lemma pick_ge_right (d k : Z) (f : Z -> Z) :
  k <> - d -> f (k - 1) + 1 <= pick d k f.
Proof.
  intros H. unfold pick. destruct (Z.eqb_spec k (- d)); [done|]. simpl.
  destruct (Z.eqb_spec k d); simpl; [lia|].
  destruct (Z.ltb_spec (f (k - 1)) (f (k + 1))); lia.
Qed.

Lemma pick_ge_down (d k : Z) (f : Z -> Z) :
  k <> d -> f (k + 1) <= pick d k f.
Proof.
  intros H. unfold pick. destruct (Z.eqb_spec k (- d)); [simpl; lia|]. simpl.
  destruct (Z.eqb_spec k d); simpl; [lia|].
  destruct (Z.ltb_spec (f (k - 1)) (f (k + 1))); lia.
Qed.

(** Every stored value is the end of a path with as many moves as the
    depth. *)
Lemma furthest_reach (n : nat) (k : Z) :
  onDiag (Z.of_nat n) k = true ->
  Reach a b n (furthest a b n k) (furthest a b n k - k).
Proof.
  revert k. induction n as [|n IH]; intros k Hk.
  - rewrite furthest_on by done. apply onDiag_iff in Hk.
    assert (k = 0) as -> by lia. apply reach_snakeEnd.
    unfold pick. simpl. constructor.
  - rewrite furthest_on by done. apply reach_snakeEnd.
    destruct (pick_source n k Hk) as [[-> Hd]|[-> Hd]].
    + specialize (IH _ Hd). unfold furthest in IH.
      replace (reachV a b (S n) (k + 1) - k)
        with (reachV a b (S n) (k + 1) - (k + 1) + 1) by lia.
      by constructor.
    + specialize (IH _ Hd). unfold furthest in IH.
      replace (reachV a b (S n) (k - 1) + 1 - k)
        with (reachV a b (S n) (k - 1) - (k - 1)) by lia.
      by constructor.
Qed.

Lemma furthest_maximal (n : nat) (k : Z) :
  onDiag (Z.of_nat n) k = true ->
  eqAt a b (furthest a b n k) (furthest a b n k - k) = false.
Proof. intros Hk. rewrite furthest_on by done. apply snakeEnd_spec. Qed.

(** No path with [n] moves ends further on its diagonal than the value
    stored for it. *)
Lemma reach_furthest (n : nat) (x y : Z) :
  Reach a b n x y ->
  onDiag (Z.of_nat n) (x - y) = true /\ x <= furthest a b n (x - y).
Proof.
  induction 1 as [|d x y H [IH1 IH2] E|d x y H [IH1 IH2]|d x y H [IH1 IH2]].
  - split; [done|]. by apply furthest_lower.
  - replace (x + 1 - (y + 1)) with (x - y) by lia. split; [done|].
    destruct (decide (x = furthest a b d (x - y))) as [Heq|]; [|lia].
    pose proof (furthest_maximal d (x - y) IH1) as Hm.
    rewrite <- Heq in Hm. replace (x - (x - y)) with y in Hm by lia.
    congruence.
  - apply onDiag_iff in IH1.
    assert (Hd : onDiag (Z.of_nat (S d)) (x + 1 - y) = true)
      by (apply onDiag_iff; zlia).
    split; [done|]. rewrite furthest_on by done.
    pose proof (snakeEnd_spec (x + 1 - y)
      (pick (Z.of_nat (S d)) (x + 1 - y) (reachV a b (S d)))) as [Hs _].
    pose proof (pick_ge_right (Z.of_nat (S d)) (x + 1 - y) (reachV a b (S d))
      ltac:(lia)) as Hp.
    replace (x + 1 - y - 1) with (x - y) in Hp by lia.
    unfold furthest in IH2. lia.
  - apply onDiag_iff in IH1.
    assert (Hd : onDiag (Z.of_nat (S d)) (x - (y + 1)) = true)
      by (apply onDiag_iff; zlia).
    split; [done|]. rewrite furthest_on by done.
    pose proof (snakeEnd_spec (x - (y + 1))
      (pick (Z.of_nat (S d)) (x - (y + 1)) (reachV a b (S d)))) as [Hs _].
    pose proof (pick_ge_down (Z.of_nat (S d)) (x - (y + 1)) (reachV a b (S d))
      ltac:(lia)) as Hp.
    replace (x - (y + 1) + 1) with (x - y) in Hp by lia.
    unfold furthest in IH2. lia.
Qed.

(** A path makes as many moves as it advances, diagonal moves counting
    for two. *)
Lemma reach_count (n : nat) (x y : Z) :
  Reach a b n x y ->
  exists g, 0 <= g /\ g <= x /\ g <= y /\ x + y = Z.of_nat n + 2 * g.
Proof.
  induction 1 as [|d x y H (g & IH) E|d x y H (g & IH)|d x y H (g & IH)].
  - exists 0. lia.
  - exists (g + 1). lia.
  - exists g. lia.
  - exists g. lia.
Qed.

(** Cutting a path at the border of the graph. *)
Lemma reach_clip (n : nat) (x y : Z) :
  Reach a b n x y ->
  exists n', Reach a b n' (Z.min x (len a)) (Z.min y (len b)) /\
    Z.of_nat n' + (x - Z.min x (len a)) + (y - Z.min y (len b))
    <= Z.of_nat n.
Proof.
  pose proof (len_nonneg a) as Ha. pose proof (len_nonneg b) as Hb.
  induction 1 as [|d x y H (n' & IH & Hn) E|d x y H (n' & IH & Hn)
                 |d x y H (n' & IH & Hn)].
  - exists 0%nat. rewrite !Z.min_l by lia. split; [constructor | lia].
  - apply eqAt_range in E as E'. exists n'.
    rewrite !Z.min_l in * by lia. split; [by constructor | lia].
  - destruct (decide (x < len a)).
    + exists (S n'). rewrite (Z.min_l x), (Z.min_l (x + 1)) in * by lia.
      split; [by constructor | lia].
    + exists n'. rewrite (Z.min_r x), (Z.min_r (x + 1)) in * by lia.
      split; [done | lia].
  - destruct (decide (y < len b)).
    + exists (S n'). rewrite (Z.min_l y), (Z.min_l (y + 1)) in * by lia.
      split; [by constructor | lia].
    + exists n'. rewrite (Z.min_r y), (Z.min_r (y + 1)) in * by lia.
      split; [done | lia].
Qed.

Lemma reach_rights (n : nat) : Reach a b n (Z.of_nat n) 0.
Proof.
  induction n as [|n IH]; [constructor|].
  replace (Z.of_nat (S n)) with (Z.of_nat n + 1) by lia. by constructor.
Qed.

Lemma reach_downs (d : nat) (x y : Z) (n : nat) :
  Reach a b d x y -> Reach a b (d + n) x (y + Z.of_nat n).
Proof.
  intros H. induction n as [|n IH].
  - by rewrite Nat.add_0_r, Z.add_0_r.
  - replace (y + Z.of_nat (S n)) with (y + Z.of_nat n + 1) by lia.
    rewrite Nat.add_succ_r. by constructor.
Qed.

Lemma reach_corner :
  Reach a b (length a + length b) (len a) (len b).
Proof.
  pose proof (reach_downs _ _ _ (length b) (reach_rights (length a))) as H.
  by rewrite Z.add_0_l in H.
Qed.

Lemma hitAt_reach (n : nat) : hitAt a b n -> Reach a b n (len a) (len b).
Proof.
  intros [Hd Hf]. pose proof (furthest_reach n _ Hd) as H.
  rewrite Hf in H. by replace (len a - (len a - len b)) with (len b) in H by lia.
Qed.

Lemma reach_hitAt (n : nat) :
  Reach a b n (len a) (len b) -> exists n', (n' <= n)%nat /\ hitAt a b n'.
Proof.
  induction (lt_wf n) as [n _ IH]. intros H.
  destruct (reach_furthest _ _ _ H) as [Hd Hf].
  destruct (decide (furthest a b n (len a - len b) = len a)) as [Heq|Hne].
  - exists n. split; [lia|]. by split.
  - pose proof (furthest_reach n _ Hd) as Hr.
    apply reach_clip in Hr as (n' & Hr & Hn).
    rewrite !Z.min_r in Hr, Hn by lia.
    destruct (IH n') as (n'' & Hle & Hh); [lia | done |].
    exists n''. split; [lia | done].
Qed.

Lemma hitAt_dec (n : nat) : Decision (hitAt a b n).
Proof. unfold hitAt. apply _. Qed.

(** The depth at which the search stops. *)
Lemma first_hit :
  exists D, hitAt a b D /\ (forall n, (n < D)%nat -> ~ hitAt a b n) /\
            (D <= length a + length b)%nat.
Proof.
  destruct (reach_hitAt _ reach_corner) as (n & Hn & Hh).
  destruct (least_witness (hitAt a b) hitAt_dec n Hh) as (D & ? & ? & ?).
  exists D. split; [done|]. split; [done | lia].
Qed.

(** *** Paths and edit scripts *)

Lemma script_snoc_delete (l1 l2 : list gostring) (d : nat) (s : gostring) :
  Script l1 l2 d -> Script (l1 ++ [s]) l2 (S d).
Proof.
  induction 1; simpl; try by constructor.
  apply script_delete, script_nil.
Qed.

Lemma script_snoc_insert (l1 l2 : list gostring) (d : nat) (t : gostring) :
  Script l1 l2 d -> Script l1 (l2 ++ [t]) (S d).
Proof.
  induction 1; simpl; try by constructor.
  apply script_insert, script_nil.
Qed.

Lemma script_snoc_keep (l1 l2 : list gostring) (d : nat) (s t : gostring) :
  lineEq s t = true -> Script l1 l2 d -> Script (l1 ++ [s]) (l2 ++ [t]) d.
Proof.
  intros E. induction 1; simpl; try by constructor.
  apply script_keep; [done | apply script_nil].
Qed.

Lemma take_succ_at {A} (l : list A) (x : Z) (s : A) :
  at_ l x = Some s -> take (Z.to_nat (x + 1)) l = take (Z.to_nat x) l ++ [s].
Proof.
  intros [H1 H2]%at_Some.
  replace (Z.to_nat (x + 1)) with (S (Z.to_nat x)) by lia.
  by apply take_S_r.
Qed.

Lemma reach_script (d : nat) (x y : Z) :
  Reach a b d x y -> x <= len a -> y <= len b ->
  Script (take (Z.to_nat x) a) (take (Z.to_nat y) b) d.
Proof.
  induction 1 as [|d x y H IH E|d x y H IH|d x y H IH]; intros Hx Hy.
  - constructor.
  - unfold eqAt in E. destruct (at_ a x) as [s|] eqn:Hs; [|done].
    destruct (at_ b y) as [t|] eqn:Ht; [|done].
    rewrite (take_succ_at _ _ _ Hs), (take_succ_at _ _ _ Ht).
    apply script_snoc_keep; [done|]. apply IH; lia.
  - destruct (reach_count _ _ _ H) as (g & ? & ? & ? & ?).
    destruct (at_in_range a x) as [s Hs]; [lia|].
    rewrite (take_succ_at _ _ _ Hs). apply script_snoc_delete, IH; lia.
  - destruct (reach_count _ _ _ H) as (g & ? & ? & ? & ?).
    destruct (at_in_range b y) as [t Ht]; [lia|].
    rewrite (take_succ_at _ _ _ Ht). apply script_snoc_insert, IH; lia.
Qed.

Lemma drop_cons_at {A} (l l' : list A) (x : nat) (s : A) :
  s :: l' = drop x l ->
  at_ l (Z.of_nat x) = Some s /\ l' = drop (S x) l /\ (x < length l)%nat.
Proof.
  intros H. assert (Hs : l !! x = Some s).
  { pose proof (lookup_drop l x 0) as E. rewrite <- H, Nat.add_0_r in E.
    by rewrite <- E. }
  rewrite at_of_nat. split; [done|]. split.
  - rewrite (drop_S _ _ _ Hs) in H. by injection H.
  - by apply lookup_lt_Some in Hs.
Qed.

Lemma script_reach (l1 l2 : list gostring) (d : nat) :
  Script l1 l2 d ->
  forall (x y d0 : nat), l1 = drop x a -> l2 = drop y b ->
    (x <= length a)%nat -> (y <= length b)%nat ->
    Reach a b d0 (Z.of_nat x) (Z.of_nat y) ->
    Reach a b (d0 + d) (len a) (len b).
Proof.
  induction 1 as [|s t l1 l2 d E H IH|s l1 l2 d H IH|t l1 l2 d H IH];
    intros x y d0 H1 H2 Hx Hy HR.
  - symmetry in H1, H2. apply drop_nil_inv in H1, H2.
    unfold len. replace (length a) with x by lia.
    replace (length b) with y by lia. by rewrite Nat.add_0_r.
  - apply drop_cons_at in H1 as (Hs & -> & ?).
    apply drop_cons_at in H2 as (Ht & -> & ?).
    apply (IH (S x) (S y) d0); [done | done | lia | lia |].
    rewrite !Nat2Z.inj_succ, <- !Z.add_1_r. constructor; [done|].
    unfold eqAt. by rewrite Hs, Ht.
  - apply drop_cons_at in H1 as (Hs & -> & ?).
    replace (d0 + S d)%nat with (S d0 + d)%nat by lia.
    apply (IH (S x) y (S d0)); [done | done | lia | lia |].
    rewrite !Nat2Z.inj_succ, <- !Z.add_1_r. by constructor.
  - apply drop_cons_at in H2 as (Ht & -> & ?).
    replace (d0 + S d)%nat with (S d0 + d)%nat by lia.
    apply (IH x (S y) (S d0)); [done | done | lia | lia |].
    rewrite !Nat2Z.inj_succ, <- !Z.add_1_r. by constructor.
Qed.

(** The depth at which the search stops is the edit distance. *)
Lemma first_hit_distance (D : nat) :
  hitAt a b D -> (forall n, (n < D)%nat -> ~ hitAt a b n) ->
  editDistance a b D.
Proof.
  intros Hh Hmin. split.
  - pose proof (reach_script _ _ _ (hitAt_reach _ Hh)) as H.
    unfold len in H. rewrite !Nat2Z.id, !take_ge in H by lia. apply H; lia.
  - intros d Hd.
    pose proof (script_reach _ _ _ Hd 0 0 0)%nat as H.
    destruct (reach_hitAt d) as (n & Hn & Hhn).
    { apply H; try done; try lia. constructor. }
    destruct (decide (D <= n)%nat); [lia|]. destruct (Hmin n); [lia | done].
Qed.
End Graph.

(** ** The forward search *)

Lemma at_set_eq {A} (l : list A) (i : Z) (v : A) (l' : list A) :
  set_ l i v = Some l' -> at_ l' i = Some v.
Proof.
  unfold set_, at_. destruct (Z.leb_spec 0 i); [|done].
  destruct (Z.ltb_spec i (len l)); [|done]. intros [= <-]. simpl.
  destruct (Z.ltb_spec i 0); [lia|].
  apply list_lookup_insert_eq. unfold len in *. lia.
Qed.

Lemma at_set_ne {A} (l : list A) (i j : Z) (v : A) (l' : list A) :
  set_ l i v = Some l' -> 0 <= j -> i <> j -> at_ l' j = at_ l j.
Proof.
  unfold set_, at_. destruct (Z.leb_spec 0 i); [|done].
  destruct (Z.ltb_spec i (len l)); [|done]. intros [= <-] Hj Hne. simpl.
  destruct (Z.ltb_spec j 0); [lia|].
  apply list_lookup_insert_ne. lia.
Qed.

Lemma len_set {A} (l : list A) (i : Z) (v : A) (l' : list A) :
  set_ l i v = Some l' -> len l' = len l.
Proof.
  unfold set_. destruct (_ && _); [|done]. intros [= <-].
  unfold len. by rewrite length_insert.
Qed.

Section Forward.
Variables a b : list gostring.

Lemma diag_loop_extend (fuel : nat) (x y : Z) :
  0 <= x -> 0 <= y ->
  diag_loop fuel a b x y =
  Some (extend fuel a b x y, y + (extend fuel a b x y - x)).
Proof.
  revert x y. induction fuel as [|fuel IH]; intros x y Hx Hy; simpl.
  - do 2 f_equal. lia.
  - unfold eqAt.
    destruct (Z.ltb_spec x (len a)) as [Ha|Ha]; simpl.
    + destruct (Z.ltb_spec y (len b)) as [Hb|Hb]; simpl.
      * destruct (at_in_range a x) as [s Hs]; [lia|].
        destruct (at_in_range b y) as [t Ht]; [lia|].
        rewrite Hs, Ht, stringEqualIgnoreLF_lineEq.
        destruct (lineEq s t).
        -- rewrite IH by lia. do 2 f_equal. lia.
        -- do 2 f_equal. lia.
      * destruct (at_ a x); [|do 2 f_equal; lia].
        destruct (at_ b y) eqn:Ht; [apply at_range in Ht; lia|].
        do 2 f_equal. lia.
    + destruct (at_ a x) eqn:Hs; [apply at_range in Hs; lia|].
      do 2 f_equal. lia.
Qed.

Lemma pick_lower (n : nat) (k : Z) :
  onDiag (Z.of_nat n) k = true ->
  0 <= pick (Z.of_nat n) k (reachV a b n) /\
  k <= pick (Z.of_nat n) k (reachV a b n).
Proof.
  intros Hk. destruct n as [|n].
  - apply onDiag_iff in Hk. assert (k = 0) as -> by lia.
    unfold pick. simpl. lia.
  - destruct (pick_source a b n k Hk) as [[-> Hd]|[-> Hd]];
      pose proof (furthest_lower a b n _ Hd) as H; unfold furthest in H; lia.
Qed.

(** Reading [V] as the forward search and [backtrack] do. *)
Lemma goesDown_pick (off : Z) (V : list Z) (f : Z -> Z) (n : nat) (k : Z) :
  0 < off -> Z.of_nat n <= off ->
  len V = 2 * off + 1 ->
  (forall j, - off <= j <= off -> (j + Z.of_nat n) mod 2 <> 0 ->
             at_ V (j + off) = Some (f j)) ->
  onDiag (Z.of_nat n) k = true ->
  exists down, goesDown V k (Z.of_nat n) off = Some down /\
    (if down then at_ V (k + 1 + off)
     else match at_ V (k - 1 + off) with
          | Some l => Some (l + 1)
          | None => None
          end) = Some (pick (Z.of_nat n) k f) /\
    at_ V ((if down then k + 1 else k - 1) + off) =
      Some (f (if down then k + 1 else k - 1)) /\
    pick (Z.of_nat n) k f =
      (if down then f (k + 1) else f (k - 1) + 1) /\
    - off <= (if down then k + 1 else k - 1) <= off.
Proof.
  intros Hoff Hn Hlen HV Hk. apply onDiag_iff in Hk.
  unfold goesDown, pick.
  destruct (Z.eqb_spec k (- Z.of_nat n)) as [Hc|Hc]; simpl.
  - exists true. rewrite <- Z.add_assoc, (Z.add_comm 1), Z.add_assoc.
    replace (k + off + 1) with (k + 1 + off) by lia.
    rewrite HV by zlia. repeat split; try done; lia.
  - destruct (Z.eqb_spec k (Z.of_nat n)) as [Hc'|Hc']; simpl.
    + exists false. rewrite HV by zlia. repeat split; try done; lia.
    + rewrite (HV (k - 1)), (HV (k + 1)) by zlia.
      exists (f (k - 1) <? f (k + 1)).
      destruct (f (k - 1) <? f (k + 1)); rewrite ?HV by zlia;
        repeat split; try done; lia.
Qed.

Lemma partialV_off (n : nat) (kmax j : Z) :
  (j + Z.of_nat n) mod 2 <> 0 -> partialV a b n kmax j = reachV a b n j.
Proof.
  intros H. unfold partialV.
  destruct (onDiag (Z.of_nat n) j) eqn:E; [|done].
  apply onDiag_iff in E. lia.
Qed.

Lemma partialV_done (n : nat) (kmax j : Z) :
  Z.of_nat n < kmax -> partialV a b n kmax j = reachV a b (S n) j.
Proof.
  intros H. unfold partialV, furthest.
  destruct (onDiag (Z.of_nat n) j) eqn:E; [|by rewrite reachV_off].
  apply onDiag_iff in E. destruct (Z.ltb_spec j kmax); [done | lia].
Qed.

Lemma holds_snapshot (off : Z) (V : list Z) (n : nat) (kmax : Z) :
  holds off V (partialV a b n kmax) -> snapshot a b off n V.
Proof.
  intros [Hlen HV]. split; [done|]. intros k Hk Hp.
  rewrite HV by done. by rewrite partialV_off.
Qed.

Lemma k_loop_spec (n : nat) (off : Z) :
  0 < off -> Z.of_nat n <= off ->
  forall (fuel : nat) (k : Z) (V : list Z),
    - Z.of_nat n <= k <= Z.of_nat n + 2 -> (k + Z.of_nat n) mod 2 = 0 ->
    Z.of_nat n + 2 - k <= 2 * Z.of_nat fuel ->
    holds off V (partialV a b n k) ->
    (forall j, onDiag (Z.of_nat n) j = true -> j < k ->
               ~ (j = len a - len b /\ furthest a b n j = len a)) ->
    exists V' r,
      k_loop fuel a b (Z.of_nat n) off V k = Some (V', r) /\
      snapshot a b off n V' /\
      (r = true <-> hitAt a b n) /\
      (r = false -> holds off V' (reachV a b (S n))).
Proof.
  intros Hoff Hn. induction fuel as [|fuel IH]; intros k V Hk Hp Hf HV Hno.
  - exists V, false. simpl. split; [done|].
    split; [by eapply holds_snapshot|]. split.
    + split; [done|]. intros [Hd Hh].
      destruct (Hno _ Hd); [apply onDiag_iff in Hd; lia | done].
    + intros _. destruct HV as [Hlen HV]. split; [done|]. intros j Hj.
      rewrite HV by done. f_equal. apply partialV_done. lia.
  - simpl. destruct (Z.leb_spec k (Z.of_nat n)) as [Hle|Hgt].
    + assert (Hd : onDiag (Z.of_nat n) k = true) by (apply onDiag_iff; lia).
      pose proof HV as [Hlen HV'].
      destruct (goesDown_pick off V (reachV a b n) n k Hoff Hn Hlen)
        as (down & -> & -> & _); [|done|].
      { intros j Hj Hpj. rewrite HV' by done. f_equal.
        by apply partialV_off. }
      destruct (pick_lower n k Hd) as [Hx0 Hxk].
      rewrite diag_loop_extend by lia.
      fold (snakeEnd a b k (pick (Z.of_nat n) k (reachV a b n))).
      rewrite <- furthest_on by done.
      set (x := pick (Z.of_nat n) k (reachV a b n)) in *.
      set (x' := furthest a b n k).
      rewrite set_in_range by lia.
      replace (x - k + (x' - x)) with (x' - k) by lia.
      assert (HV2 : holds off (<[Z.to_nat (k + off) := x']> V)
                      (partialV a b n (k + 2))).
      { split; [unfold len in *; by rewrite length_insert|]. intros j Hj.
        destruct (decide (j = k)) as [->|Hjk].
        - erewrite at_set_eq by (apply set_in_range; lia). f_equal.
          unfold partialV. rewrite Hd.
          by destruct (Z.ltb_spec k (k + 2)); [|lia].
        - erewrite at_set_ne; [|apply set_in_range; lia|lia|lia].
          rewrite HV' by done. f_equal. unfold partialV.
          destruct (onDiag (Z.of_nat n) j) eqn:E; [|done]. simpl.
          apply onDiag_iff in E.
          destruct (Z.ltb_spec j k), (Z.ltb_spec j (k + 2)); try done; zlia. }
      destruct (Z.eqb_spec x' (len a)) as [Hxa|Hxa]; simpl.
      * destruct (Z.eqb_spec (x' - k) (len b)) as [Hyb|Hyb]; simpl.
        -- eexists _, true. split; [done|].
           split; [by eapply holds_snapshot|]. split; [|done].
           split; [|done]. intros _. split.
           ++ by replace (len a - len b) with k by lia.
           ++ by replace (len a - len b) with k by lia.
        -- apply IH; [lia | zlia | lia | done |].
           intros j Hj Hlt. destruct (decide (j = k)) as [->|]; [lia|].
           apply Hno; [done|]. apply onDiag_iff in Hj. zlia.
      * apply IH; [lia | zlia | lia | done |].
        intros j Hj Hlt. destruct (decide (j = k)) as [->|].
        -- fold x'. lia.
        -- apply Hno; [done|]. apply onDiag_iff in Hj. zlia.
    + exists V, false. split; [done|].
      split; [by eapply holds_snapshot|]. split.
      * split; [done|]. intros [Hd Hh]. destruct (Hno _ Hd); [|done].
        apply onDiag_iff in Hd. lia.
      * intros _. destruct HV as [Hlen HV]. split; [done|]. intros j Hj.
        rewrite HV by done. f_equal. apply partialV_done. lia.
Qed.

Lemma at_make {A} (z : A) (n i : Z) : 0 <= i < n -> at_ (make z n) i = Some z.
Proof.
  intros H. unfold at_, make. destruct (Z.ltb_spec i 0); [lia|].
  apply lookup_replicate_2. lia.
Qed.

Lemma len_make {A} (z : A) (n : Z) : 0 <= n -> len (make z n) = n.
Proof. intros H. unfold len. rewrite length_make. lia. Qed.

Lemma d_loop_spec (D : nat) (off : Z) :
  off = len b + len a -> 0 < off -> Z.of_nat D <= off ->
  hitAt a b D -> (forall n, (n < D)%nat -> ~ hitAt a b n) ->
  forall (fuel n : nat) (V : list Z) (trace : list (list Z)),
    (n <= D)%nat -> (D - n < fuel)%nat ->
    holds off V (reachV a b n) ->
    len trace = off + 1 ->
    (forall i, (i < n)%nat ->
       exists T, at_ trace (Z.of_nat i) = Some T /\ snapshot a b off i T) ->
    (forall i, Z.of_nat n <= i <= off -> at_ trace i = Some []) ->
    exists trace',
      d_loop fuel a b off V trace (Z.of_nat n) = Some (trace', off) /\
      traceOf a b D trace'.
Proof.
  intros Hoff Hpos HD Hhit Hmin.
  induction fuel as [|fuel IH]; intros n V trace Hn Hf HV Hlen Hlo Hhi; [lia|].
  simpl. rewrite <- Hoff.
  destruct (Z.leb_spec (Z.of_nat n) off) as [_|]; [|lia].
  destruct (k_loop_spec n off Hpos ltac:(lia) (Z.to_nat (Z.of_nat n + 1))
              (- Z.of_nat n) V) as (V' & r & -> & Hsnap & Hr & HV');
    [lia | zlia | lia | | |].
  { destruct HV as [HlV HV]. split; [done|]. intros j Hj.
    rewrite HV by done. f_equal. unfold partialV.
    destruct (onDiag (Z.of_nat n) j) eqn:E; [|done].
    apply onDiag_iff in E. by destruct (Z.ltb_spec j (- Z.of_nat n)); [lia|]. }
  { intros j Hj Hlt. apply onDiag_iff in Hj. lia. }
  rewrite copy_same_length.
  2:{ rewrite length_make. destruct HV as [HlV _], Hsnap as [HlV' _].
      unfold len in *. lia. }
  rewrite set_in_range by lia.
  set (trace' := <[Z.to_nat (Z.of_nat n) := V']> trace).
  assert (Hset : set_ trace (Z.of_nat n) V' = Some trace')
    by (apply set_in_range; lia).
  destruct r.
  - assert (n = D) as ->.
    { destruct (decide (n = D)); [done|]. destruct (Hmin n); [lia|].
      by apply Hr. }
    exists trace'. split; [done|]. unfold traceOf. rewrite <- Hoff.
    split; [by rewrite (len_set _ _ _ _ Hset)|]. split.
    + intros i Hi. destruct (decide (i = D)) as [->|].
      * exists V'. split; [by eapply at_set_eq | done].
      * rewrite (at_set_ne _ _ _ _ _ Hset) by lia. apply Hlo. lia.
    + intros i Hi. rewrite (at_set_ne _ _ _ _ _ Hset) by lia. apply Hhi. lia.
  - assert (n <> D).
    { intros ->. assert (false = true); [by apply Hr | done]. }
    replace (Z.of_nat n + 1) with (Z.of_nat (S n)) by lia.
    apply IH; [lia | lia | by apply HV' | by rewrite (len_set _ _ _ _ Hset) | |].
    + intros i Hi. destruct (decide (i = n)) as [->|].
      * exists V'. split; [by eapply at_set_eq | done].
      * rewrite (at_set_ne _ _ _ _ _ Hset) by lia. apply Hlo. lia.
    + intros i Hi. rewrite (at_set_ne _ _ _ _ _ Hset) by lia. apply Hhi. lia.
Qed.

(** The forward search on sequences that are not both empty: it stops at
    the first depth that reaches the end point and returns the snapshots
    up to that depth. *)
Lemma shortestEditSequence_spec :
  0 < len a + len b ->
  exists (D : nat) (trace : list (list Z)),
    shortestEditSequence a b = Some (trace, len b + len a) /\
    hitAt a b D /\ (forall n, (n < D)%nat -> ~ hitAt a b n) /\
    (D <= length a + length b)%nat /\
    traceOf a b D trace.
Proof.
  intros Hpos. destruct (first_hit a b) as (D & Hhit & Hmin & HD).
  exists D. unfold shortestEditSequence.
  destruct (d_loop_spec D (len b + len a) eq_refl ltac:(lia)
              ltac:(unfold len; lia) Hhit Hmin
              (Z.to_nat (len b + len a + 1)) 0%nat
              (make 0 (2 * (len b + len a) + 1))
              (make [] (len b + len a + 1)))
    as (trace & Htr & Htrace).
  - lia.
  - unfold len. lia.
  - split; [apply len_make; lia|]. intros k Hk. apply at_make. lia.
  - apply len_make. lia.
  - intros i Hi. lia.
  - intros i Hi. apply at_make. lia.
  - exists trace. split; [exact Htr | auto].
Qed.
End Forward.

(** ** Backtracking *)

Lemma insert_replicate_last {A} (n : nat) (z v : A) (l : list A) :
  <[n := v]> (replicate (S n) z ++ l) = replicate n z ++ v :: l.
Proof. induction n as [|n IH]; simpl; [done|]. f_equal. apply IH. Qed.

Lemma goesDown_onDiag (off : Z) (V : list Z) (n : nat) (k : Z) (down : bool) :
  goesDown V k (Z.of_nat (S n)) off = Some down ->
  onDiag (Z.of_nat (S n)) k = true ->
  onDiag (Z.of_nat n) (if down then k + 1 else k - 1) = true.
Proof.
  intros H Hk. apply onDiag_iff in Hk. apply onDiag_iff. unfold goesDown in H.
  destruct (Z.eqb_spec k (- Z.of_nat (S n))); [injection H as <-; zlia|].
  destruct (Z.eqb_spec k (Z.of_nat (S n))); simpl in H;
    [injection H as <-; zlia|].
  destruct (at_ V (k - 1 + off)); [|done].
  destruct (at_ V (k + 1 + off)); [|done].
  injection H as <-. destruct (_ <? _); zlia.
Qed.

Section Backtrack.
Variables a b : list gostring.
Variable D : nat.
Variable trace : list (list Z).
Hypothesis Htrace : traceOf a b D trace.
Hypothesis Hhit : hitAt a b D.
Hypothesis HD : (D <= length a + length b)%nat.

Lemma bt_body_spec (s : btstate) :
  btInv a b D s -> bt_cond s = true ->
  exists s', bt_body trace (len b + len a) s = Some s' /\
    btInv a b D s' /\ bt_d s' = bt_d s - 1.
Proof.
  destruct s as [snakes x y d]. unfold bt_cond, btInv. simpl.
  rewrite !andb_true_iff, !Z.ltb_lt.
  destruct Htrace as (Hlen & Hlo & Hhi).
  intros [(Hd & -> & -> & ->)|(n & pts & -> & Hn & Hk & Hx & Hxa & Hyb & Hlt
                                 & Hch & ->)] [[Hx0 Hy0] Hd0]; simpl in *.
  - rewrite Hhi by lia. simpl. eexists. split; [done|]. split; [|done].
    destruct (decide (Z.of_nat D < d - 1)) as [Hgt|Hle]; [left; simpl|right].
    + repeat split; try done; lia.
    + exists D, []. simpl. destruct Hhit as [Hd1 Hd2].
      repeat split; try done; try lia.
      change ([] :: replicate D [] ++ ?l)
        with (replicate (S D) ([] : list Z) ++ l).
      rewrite <- replicate_add. unfold make. f_equal. unfold len in *. lia.
  - destruct n as [|n]; [lia|].
    destruct (Hlo (S n) Hn) as (T & -> & HlT & HT).
    destruct (Z.eqb_spec (len T) 0) as [|_]; [lia|].
    rewrite set_in_range.
    2:{ unfold len. simpl. rewrite !length_app, !length_replicate. lia. }
    destruct (goesDown_pick (len b + len a) T (reachV a b (S n)) (S n)
                (x - y)) as (down & Hdown & _ & Hat & Hpick & Hrange);
      [lia | unfold len in *; lia | done | done | done |].
    rewrite Hdown, Hat.
    pose proof (goesDown_onDiag _ _ _ _ _ Hdown Hk) as Hprev.
    set (kPrev := if down then x - y + 1 else x - y - 1) in *.
    set (xp := reachV a b (S n) kPrev).
    eexists. split; [done|]. split; [|simpl; lia]. right.
    exists n, ([x; y] :: pts). simpl.
    replace (xp - (xp - kPrev)) with kPrev by lia.
    rewrite furthest_on in Hx by done. rewrite Hpick in Hx.
    pose proof (snakeEnd_spec a b (x - y)
      (if down then reachV a b (S n) (x - y + 1)
       else reachV a b (S n) (x - y - 1) + 1)) as (Hs1 & Hs2 & _).
    rewrite <- Hx in Hs1, Hs2.
    assert (Hxp : xp = reachV a b (S n) (if down then x - y + 1 else x - y - 1))
      by done.
    split; [lia|]. split; [lia|]. split; [done|]. split; [done|].
    split; [destruct down; lia|]. split; [destruct down; lia|].
    split; [intros _; destruct down; lia|]. split.
    + exists x, y, (if down then 0 else 1), (if down then 1 else 0).
      split; [done|]. split.
      * unfold segment. destruct down; repeat split; try lia;
          intros i Hi; apply Hs2; lia.
      * split; [done|]. split; [done|]. split; [done|].
        match goal with H : chain _ _ _ _ _ ?c |- chain _ _ _ _ _ ?c' =>
          replace c' with c by (destruct down; lia) end.
        done.
    + replace (Z.to_nat (Z.of_nat (S n))) with (S n) by lia.
      apply (insert_replicate_last (S n) ([] : list Z) [x; y]).
Qed.

Lemma bt_loop_spec (fuel : nat) (s : btstate) :
  btInv a b D s -> bt_d s <= Z.of_nat fuel ->
  exists s', bt_loop fuel trace (len b + len a) s = Some s' /\
    btInv a b D s' /\ bt_cond s' = false.
Proof.
  revert s. induction fuel as [|fuel IH]; intros s Hinv Hd; simpl.
  - exists s. split; [done|]. split; [done|]. unfold bt_cond.
    destruct (Z.ltb_spec 0 (bt_d s)); [lia|]. by rewrite andb_false_r.
  - destruct (bt_cond s) eqn:Hc; [|by exists s].
    destruct (bt_body_spec s Hinv Hc) as (s1 & -> & Hinv1 & Hd1).
    apply IH; [done | lia].
Qed.

Lemma bt_finish_spec (s : btstate) :
  btInv a b D s -> bt_cond s = false ->
  exists (n0 : nat) (pts : list (list Z)) (n1 : nat),
    bt_finish s = Some (replicate n0 [] ++ pts ++ replicate n1 []) /\
    chain a b 0 0 pts (Z.of_nat D) /\ pts <> [].
Proof.
  destruct s as [snakes x y d]. unfold bt_cond, btInv. simpl.
  pose proof (len_nonneg a) as Ha. pose proof (len_nonneg b) as Hb.
  intros [(Hd & -> & -> & ->)|(n & pts & -> & Hn & Hk & Hx & Hxa & Hyb & Hlt
                                 & Hch & ->)] Hc.
  - destruct (Z.ltb_spec (len a) 0); [lia|].
    destruct (Z.ltb_spec (len b) 0); [lia|]. simpl.
    rewrite set_in_range by (rewrite len_make; lia).
    exists (Z.to_nat d), [[len a; len b]], (Z.to_nat (len b + len a - d)).
    split.
    + f_equal. unfold make.
      replace (Z.to_nat (len b + len a + 1))
        with (S (Z.to_nat d) + Z.to_nat (len b + len a - d))%nat by lia.
      rewrite replicate_add. apply insert_replicate_last.
    + split; [|done]. simpl.
      destruct (reach_count a b _ _ _ (hitAt_reach a b _ Hhit))
        as (g & Hg1 & Hg2 & Hg3 & Hg4).
      assert (len a = 0 \/ len b = 0) as Hzero.
      { destruct (Z.ltb_spec 0 (len a)), (Z.ltb_spec 0 (len b)),
          (Z.ltb_spec 0 d); simpl in Hc; try done; lia. }
      exists (len a), (len b), (len a), (len b).
      split; [done|]. split; [|repeat split; try done; lia].
      unfold segment. repeat split; lia.
  - pose proof (furthest_lower a b n _ Hk) as [Hf1 Hf2]. rewrite <- Hx in *.
    destruct (Z.ltb_spec x 0); [lia|]. destruct (Z.ltb_spec y 0); [lia|].
    simpl. rewrite set_in_range.
    2:{ unfold len. simpl. rewrite !length_app, !length_replicate. lia. }
    exists n, ([x; y] :: pts), (Z.to_nat (len b + len a) - D)%nat. split.
    { f_equal. rewrite Nat2Z.id.
      apply (insert_replicate_last n ([] : list Z) [x; y]). }
    split; [|done]. simpl.
    pose proof (furthest_reach a b n _ Hk) as Hr. rewrite <- Hx in Hr.
    replace (x - (x - y)) with y in Hr by lia.
    destruct (reach_count a b _ _ _ Hr) as (g & Hg1 & Hg2 & Hg3 & Hg4).
    exists x, y, (x - g), (y - g). split; [done|].
    assert (Hcase : n = 0%nat \/ x = 0 \/ y = 0).
    { destruct (Z.ltb_spec 0 x), (Z.ltb_spec 0 y),
        (Z.ltb_spec 0 (Z.of_nat n)); simpl in Hc; try done; lia. }
    split.
    + unfold segment. split; [lia|]. split; [lia|]. split; [lia|].
      split; [lia|]. split; [lia|]. intros i Hi.
      destruct (decide (n = 0%nat)) as [->|]; [|lia].
      rewrite furthest_on in Hx by done. apply onDiag_iff in Hk.
      assert (x - y = 0) as Hxy by lia. rewrite Hxy in *.
      pose proof (snakeEnd_spec a b 0 (pick (Z.of_nat 0) 0 (reachV a b 0)))
        as (_ & Hs & _).
      rewrite <- Hx in Hs. apply Hs. unfold pick. simpl. lia.
    + split; [done|]. split; [done|]. split; [done|].
      match goal with H : chain _ _ _ _ _ ?c |- chain _ _ _ _ _ ?c' =>
        by replace c' with c by lia end.
Qed.

(** [backtrack] on the trace of the forward search returns the snakes of
    a path from the origin to the end point, between unused entries. *)
Lemma backtrack_spec :
  exists (n0 : nat) (pts : list (list Z)) (n1 : nat),
    backtrack trace (len a) (len b) (len b + len a) =
      Some (replicate n0 [] ++ pts ++ replicate n1 []) /\
    chain a b 0 0 pts (Z.of_nat D) /\ pts <> [].
Proof.
  unfold backtrack. pose proof Htrace as (Hlen & _ & _).
  assert (Hinit : btInv a b D (bt_init trace (len a) (len b))).
  { unfold btInv, bt_init. simpl. rewrite Hlen.
    destruct (decide (Z.of_nat D < len b + len a)) as [Hlt|Hge].
    - left. repeat split; try done; lia.
    - right. exists D, []. simpl. destruct Hhit as [Hh1 Hh2].
      unfold len in *.
      repeat split; try done; try lia.
      change ([] :: replicate D [] ++ ?l)
        with (replicate (S D) ([] : list Z) ++ l).
      rewrite <- replicate_add. unfold make. f_equal. lia. }
  destruct (bt_loop_spec (Z.to_nat (bt_d (bt_init trace (len a) (len b))))
              _ Hinit ltac:(lia)) as (s & -> & Hinv & Hc).
  by apply bt_finish_spec.
Qed.
End Backtrack.

(** ** Building the operations *)

Lemma del_loop_none (fuel : nat) (s0 s1 M : Z) (op : option Op) (x y : Z) :
  s0 - s1 - (x - y) <= 0 -> del_loop fuel s0 s1 M op x y = (op, x).
Proof.
  intros H. destruct fuel; simpl; [done|].
  by destruct (Z.ltb_spec (x - y) (s0 - s1)); [lia|].
Qed.

Lemma del_loop_some (fuel : nat) (s0 s1 M : Z) (op : option Op) (x y : Z) :
  0 < s0 - s1 - (x - y) -> (Z.to_nat (s0 - s1 - (x - y)) <= fuel)%nat ->
  x + (s0 - s1 - (x - y)) <= M ->
  del_loop fuel s0 s1 M op x y =
  (Some (default (mkOp Delete [] x 0 y) op), x + (s0 - s1 - (x - y))).
Proof.
  revert op x. induction fuel as [|fuel IH]; intros op x Hnd Hf HM; [lia|].
  simpl. destruct (Z.ltb_spec (x - y) (s0 - s1)); [|lia].
  destruct (decide (s0 - s1 - (x - y) = 1)) as [H1|H1].
  - replace (x + (s0 - s1 - (x - y))) with (x + 1) by lia.
    destruct (Z.eqb_spec (x + 1) M).
    + by destruct op.
    + rewrite del_loop_none by lia. by destruct op.
  - destruct (Z.eqb_spec (x + 1) M); [lia|].
    rewrite IH by lia. f_equal; [by destruct op | lia].
Qed.

Lemma ins_loop_none (fuel : nat) (s0 s1 : Z) (op : option Op) (x y : Z) :
  x - y - (s0 - s1) <= 0 -> ins_loop fuel s0 s1 op x y = (op, y).
Proof.
  intros H. destruct fuel; simpl; [done|].
  by destruct (Z.ltb_spec (s0 - s1) (x - y)); [lia|].
Qed.

Lemma ins_loop_some (fuel : nat) (s0 s1 : Z) (op : option Op) (x y : Z) :
  0 < x - y - (s0 - s1) -> (Z.to_nat (x - y - (s0 - s1)) <= fuel)%nat ->
  ins_loop fuel s0 s1 op x y =
  (Some (default (mkOp Insert [] x 0 y) op), y + (x - y - (s0 - s1))).
Proof.
  revert op y. induction fuel as [|fuel IH]; intros op y Hni Hf; [lia|].
  simpl. destruct (Z.ltb_spec (s0 - s1) (x - y)); [|lia].
  destruct (decide (x - y - (s0 - s1) = 1)) as [H1|H1].
  - rewrite ins_loop_none by lia. f_equal; [by destruct op | lia].
  - rewrite IH by lia. f_equal; [by destruct op | lia].
Qed.

Lemma eq_loop_spec (fuel : nat) (s0 x y : Z) :
  (Z.to_nat (s0 - x) <= fuel)%nat ->
  eq_loop fuel s0 x y = (Z.max x s0, y + (Z.max x s0 - x)).
Proof.
  revert x y. induction fuel as [|fuel IH]; intros x y Hf; simpl.
  - f_equal; lia.
  - destruct (Z.ltb_spec x s0).
    + rewrite IH by lia. f_equal; lia.
    + f_equal; lia.
Qed.

Lemma ops_loop_skip (b : list gostring) (M N : Z) (n : nat)
    (snakes : list (list Z)) (solution : list Op) (x y : Z) :
  ops_loop b M N (replicate n [] ++ snakes) solution x y =
  ops_loop b M N snakes solution x y.
Proof. induction n as [|n IH]; simpl; done. Qed.

Section Builder.
Variables a b : list gostring.

Lemma chain_cost_nonneg (pts : list (list Z)) (x y c : Z) :
  chain a b x y pts c -> 0 <= c.
Proof.
  revert x y c. induction pts as [|p rest IH]; simpl; intros x y c.
  - intros (_ & _ & ->). lia.
  - intros (x' & y' & nd & ni & _ & (Hnd & Hni & _) & _ & _ & _ & Hch).
    apply IH in Hch. lia.
Qed.

Lemma ops_loop_chain (pts : list (list Z)) :
  forall (x y c : Z) (solution : list Op) (tail : list (list Z)),
    chain a b x y pts c -> pts <> [] -> 0 <= x -> 0 <= y ->
    len solution + c <= len a + len b ->
    ops_loop b (len a) (len b) (pts ++ tail) solution x y =
    Some (solution ++ chainOps b x y pts).
Proof.
  induction pts as [|p rest IH]; intros x y c solution tail Hch Hne Hx Hy Hcap;
    [done|].
  destruct Hch as (x' & y' & nd & ni & -> & Hseg & Hx' & Hy' & Hlt & Hch).
  destruct Hseg as (Hnd & Hni & Hor & Hk & Hxnd & _).
  pose proof (chain_cost_nonneg _ _ _ _ Hch) as Hc.
  assert (Hfin : forall sol,
    len sol + (c - nd - ni) <= len a + len b ->
    (if (len a <=? x') && (len b <=? y') then Some sol
     else ops_loop b (len a) (len b) (rest ++ tail) sol x' y') =
    Some (sol ++ chainOps b x' y' rest)).
  { intros sol Hsol. destruct rest as [|p' rest'].
    - destruct Hch as (-> & -> & _). rewrite !Z.leb_refl. simpl.
      by rewrite app_nil_r.
    - specialize (Hlt ltac:(done)).
      destruct (Z.leb_spec (len a) x'), (Z.leb_spec (len b) y'); simpl;
        try lia; by apply (IH x' y' (c - nd - ni)); try done; lia. }
  change (ops_loop b (len a) (len b) (([x'; y'] :: rest) ++ tail) solution x y)
    with
    (let '(op, x1) :=
       del_loop (Z.to_nat (x' - y' - (x - y))) x' y' (len a) None x y in
     let! solution := add b (len a + len b) solution op x1 y in
     let '(op, y1) :=
       ins_loop (Z.to_nat (x1 - y - (x' - y'))) x' y' None x1 y in
     let! solution := add b (len a + len b) solution op x1 y1 in
     let '(x2, y2) := eq_loop (Z.to_nat (x' - x1)) x' x1 y1 in
     if (len a <=? x2) && (len b <=? y2) then Some solution
     else ops_loop b (len a) (len b) (rest ++ tail) solution x2 y2).
  change (chainOps b x y ([x'; y'] :: rest)) with
    (segOps b x y (Z.max 0 (x' - y' - (x - y))) (Z.max 0 (x - y - (x' - y')))
     ++ chainOps b x' y' rest).
  unfold segOps.
  destruct (decide (0 < nd)) as [Hnd1|Hnd0].
  - rewrite del_loop_some by lia. simpl.
    destruct (Z.ltb_spec (len solution) (len a + len b)); [|lia].
    rewrite ins_loop_none by lia. simpl.
    rewrite eq_loop_spec by lia.
    replace (Z.max (x + (x' - y' - (x - y))) x') with x' by lia.
    replace (y + (x' - (x + (x' - y' - (x - y))))) with y' by lia.
    rewrite Hfin by (rewrite len_app; unfold len at 2; simpl; lia).
    destruct (Z.ltb_spec 0 (Z.max 0 (x' - y' - (x - y)))); [|lia].
    rewrite <- app_assoc. do 5 f_equal; lia.
  - rewrite del_loop_none by lia. simpl.
    destruct (decide (0 < ni)) as [Hni1|Hni0].
    + rewrite ins_loop_some by lia. simpl.
      rewrite slice_in_range by lia.
      destruct (Z.ltb_spec (len solution) (len a + len b)); [|lia].
      rewrite eq_loop_spec by lia.
      replace (Z.max x x') with x' by lia.
      replace (y + (x - y - (x' - y')) + (x' - x)) with y' by lia.
      rewrite Hfin by (rewrite len_app; unfold len at 2; simpl; lia).
      destruct (Z.ltb_spec 0 (Z.max 0 (x' - y' - (x - y)))); [lia|].
      destruct (Z.ltb_spec 0 (Z.max 0 (x - y - (x' - y')))); [|lia].
      rewrite <- app_assoc. unfold span. do 5 f_equal; f_equal; lia.
    + rewrite ins_loop_none by lia. simpl.
      rewrite eq_loop_spec by lia.
      replace (Z.max x x') with x' by lia.
      replace (y + (x' - x)) with y' by lia.
      rewrite Hfin by lia.
      destruct (Z.ltb_spec 0 (Z.max 0 (x' - y' - (x - y)))); [lia|].
      destruct (Z.ltb_spec 0 (Z.max 0 (x - y - (x' - y')))); [lia|].
      done.
Qed.

Lemma editCount_app (l1 l2 : list Op) :
  editCount (l1 ++ l2) = editCount l1 + editCount l2.
Proof. induction l1 as [|op l1 IH]; simpl; lia. Qed.

Lemma len_span {A} (l : list A) (lo hi : Z) :
  0 <= lo <= hi -> hi <= len l -> len (span l lo hi) = hi - lo.
Proof.
  intros H1 H2. unfold span, len in *. rewrite length_take, length_drop. lia.
Qed.

Lemma span_nil {A} (l : list A) (lo : Z) : span l lo lo = [].
Proof. unfold span. by rewrite Z.sub_diag. Qed.

Lemma span_take {A} (l : list A) (n : Z) : span l 0 n = take (Z.to_nat n) l.
Proof. unfold span. by rewrite Z.sub_0_r. Qed.

Lemma span_app {A} (l : list A) (lo mid hi : Z) :
  0 <= lo <= mid -> mid <= hi -> span l lo mid ++ span l mid hi = span l lo hi.
Proof.
  intros H1 H2. unfold span.
  replace (Z.to_nat mid) with (Z.to_nat lo + Z.to_nat (mid - lo))%nat by lia.
  rewrite <- drop_drop, take_take_drop. f_equal. lia.
Qed.

Lemma span_snoc {A} (l : list A) (lo hi : Z) (s : A) :
  0 <= lo <= hi -> at_ l hi = Some s -> span l lo (hi + 1) = span l lo hi ++ [s].
Proof.
  intros H [_ Hs]%at_Some. unfold span.
  replace (Z.to_nat (hi + 1 - lo)) with (S (Z.to_nat (hi - lo))) by lia.
  apply take_S_r. rewrite lookup_drop. rewrite <- Hs. f_equal. lia.
Qed.

Lemma slice_span {A} (l : list A) (lo hi : Z) :
  0 <= lo <= hi -> hi <= len l -> slice l lo hi = Some (span l lo hi).
Proof. apply slice_in_range. Qed.

Lemma linesEq_refl (l : list gostring) : linesEq l l.
Proof.
  apply Forall_Forall2_diag, Forall_forall. intros s _. apply lineEq_refl.
Qed.

(** The three shapes of a segment and of its operation. *)
Lemma segment_cases (x y nd ni x' y' : Z) :
  segment a b x y nd ni x' y' ->
  (0 < nd /\ ni = 0 /\
   segOps b x y (Z.max 0 (x' - y' - (x - y))) (Z.max 0 (x - y - (x' - y')))
   = [mkOp Delete [] x (x + nd) y]) \/
  (nd = 0 /\ 0 < ni /\
   segOps b x y (Z.max 0 (x' - y' - (x - y))) (Z.max 0 (x - y - (x' - y')))
   = [mkOp Insert (span b y (y + ni)) x x y]) \/
  (nd = 0 /\ ni = 0 /\
   segOps b x y (Z.max 0 (x' - y' - (x - y))) (Z.max 0 (x - y - (x' - y')))
   = []).
Proof.
  intros (Hnd & Hni & Hor & Hk & _). unfold segOps.
  destruct (Z.ltb_spec 0 (Z.max 0 (x' - y' - (x - y)))).
  - left. split; [lia|]. split; [lia|]. do 3 f_equal. lia.
  - destruct (Z.ltb_spec 0 (Z.max 0 (x - y - (x' - y')))).
    + right. left. split; [lia|]. split; [lia|]. do 4 f_equal. lia.
    + right. right. split; [lia|]. split; [lia|]. done.
Qed.

Lemma chainOps_cons (x y x' y' : Z) (rest : list (list Z)) :
  chainOps b x y ([x'; y'] :: rest) =
  segOps b x y (Z.max 0 (x' - y' - (x - y))) (Z.max 0 (x - y - (x' - y')))
  ++ chainOps b x' y' rest.
Proof. done. Qed.

(** The operations delete and insert as many lines as the path costs. *)
Lemma chainOps_count (pts : list (list Z)) :
  forall x y c, chain a b x y pts c -> 0 <= y ->
    editCount (chainOps b x y pts) = c.
Proof.
  induction pts as [|p rest IH]; intros x y c Hch Hy.
  - destruct Hch as (_ & _ & ->). done.
  - destruct Hch as (x' & y' & nd & ni & -> & Hseg & Hx' & Hy' & Hlt & Hch).
    rewrite chainOps_cons, editCount_app.
    pose proof Hseg as (Hnd & Hni & Hor & Hk & Hxnd & _).
    rewrite (IH _ _ _ Hch) by lia.
    destruct (segment_cases _ _ _ _ _ _ Hseg)
      as [(? & ? & ->)|[(? & ? & ->)|(? & ? & ->)]];
      unfold editCount, opLines; simpl; [lia | | lia].
    rewrite len_span by lia. lia.
Qed.

Lemma chainOps_ordered (pts : list (list Z)) :
  forall x y c lo, chain a b x y pts c -> lo <= x ->
    ordered lo (chainOps b x y pts).
Proof.
  induction pts as [|p rest IH]; intros x y c lo Hch Hlo; [done|].
  destruct Hch as (x' & y' & nd & ni & -> & Hseg & Hx' & Hy' & Hlt & Hch).
  rewrite chainOps_cons.
  pose proof Hseg as (Hnd & Hni & Hor & Hk & Hxnd & _).
  destruct (segment_cases _ _ _ _ _ _ Hseg)
    as [(? & ? & ->)|[(? & ? & ->)|(? & ? & ->)]]; simpl.
  - split; [lia|]. split; [lia|]. eapply IH; [done | lia].
  - split; [lia|]. split; [lia|]. eapply IH; [done | lia].
  - eapply IH; [done | lia].
Qed.

(** Copying the source lines up to the next operation. *)
Lemma catch_up (acc : list gostring) (prev x : Z) :
  0 <= prev <= x -> x <= len a ->
  (if 0 <? x - prev then
     match slice a prev x with
     | Some s => Some (acc ++ s)
     | None => None
     end
   else Some acc) = Some (acc ++ span a prev x).
Proof.
  intros H1 H2. destruct (Z.ltb_spec 0 (x - prev)).
  - by rewrite slice_span.
  - replace x with prev by lia. by rewrite span_nil, app_nil_r.
Qed.

End Builder.

(** ** The edit distance as a function *)

Lemma lineDistance_nil_r (a : list gostring) : lineDistance a [] = length a.
Proof. by destruct a. Qed.

Lemma lineDistance_cons (s t : gostring) (a b : list gostring) :
  lineDistance (s :: a) (t :: b) =
  let d := S (Nat.min (lineDistance a (t :: b)) (lineDistance (s :: a) b)) in
  if lineEq s t then Nat.min (lineDistance a b) d else d.
Proof. done. Qed.

Lemma script_deletes (a : list gostring) : Script a [] (length a).
Proof. induction a; simpl; by constructor. Qed.

Lemma script_inserts (b : list gostring) : Script [] b (length b).
Proof. induction b; simpl; by constructor. Qed.

Lemma lineDistance_script (a : list gostring) :
  forall b, Script a b (lineDistance a b).
Proof.
  induction a as [|s a IHa]; intros b; [apply script_inserts|].
  induction b as [|t b IHb].
  - rewrite lineDistance_nil_r. apply script_deletes.
  - rewrite lineDistance_cons.
    assert (Hd : Script (s :: a) (t :: b)
                   (S (Nat.min (lineDistance a (t :: b))
                               (lineDistance (s :: a) b)))).
    { destruct (Nat.min_spec (lineDistance a (t :: b))
                             (lineDistance (s :: a) b)) as [[_ ->]|[_ ->]].
      - apply script_delete, IHa.
      - apply script_insert, IHb. }
    cbv zeta. destruct (lineEq s t) eqn:E; [|done].
    match goal with |- Script _ _ (Nat.min ?u ?v) =>
      destruct (Nat.min_spec u v) as [[_ ->]|[_ ->]] end; [|done].
    apply script_keep; [done | apply IHa].
Qed.

Lemma lineDistance_least (a b : list gostring) (d : nat) :
  Script a b d -> (lineDistance a b <= d)%nat.
Proof.
  induction 1 as [|s t a b d E H IH|s a b d H IH|t a b d H IH].
  - done.
  - rewrite lineDistance_cons. cbv zeta. rewrite E. lia.
  - destruct b as [|t b].
    + rewrite lineDistance_nil_r in *. simpl. lia.
    + rewrite lineDistance_cons. cbv zeta. destruct (lineEq s t); lia.
  - destruct a as [|s a].
    + simpl in *. lia.
    + rewrite lineDistance_cons. cbv zeta. destruct (lineEq s t); lia.
Qed.

Lemma editDistance_lineDistance (a b : list gostring) (D : nat) :
  editDistance a b D <-> D = lineDistance a b.
Proof.
  split.
  - intros [H1 H2]. apply lineDistance_least in H1.
    specialize (H2 _ (lineDistance_script a b)). lia.
  - intros ->. split; [apply lineDistance_script|].
    apply lineDistance_least.
Qed.

(** ** The whole of [Operations] *)

Lemma traceOf_stopsAt (a b : list gostring) (D : nat) (trace : list (list Z)) :
  traceOf a b D trace -> stopsAt trace D.
Proof.
  intros (Hlen & Hlo & Hhi). split.
  - destruct (Hlo D ltac:(lia)) as (T & HT & HlT & _). exists T.
    split; [done|]. intros ->. pose proof (len_nonneg a). pose proof (len_nonneg b).
    unfold len in HlT at 1. simpl in HlT. lia.
  - intros i T Hi HT. apply at_range in HT as Hr.
    rewrite Hhi in HT by lia. congruence.
Qed.

(** On sequences that are not both empty [Operations] returns the
    operations of a path of the edit graph whose cost is the depth at which
    the search stopped, and that depth is the edit distance. *)
Lemma Operations_spec (a b : list gostring) :
  0 < len a + len b ->
  exists (D : nat) (trace : list (list Z)) (pts : list (list Z)),
    shortestEditSequence a b = Some (trace, len b + len a) /\
    stopsAt trace D /\ editDistance a b D /\
    chain a b 0 0 pts (Z.of_nat D) /\
    Operations a b = Some (chainOps b 0 0 pts).
Proof.
  intros Hpos.
  destruct (shortestEditSequence_spec a b Hpos)
    as (D & trace & Hses & Hhit & Hmin & HD & Htrace).
  destruct (backtrack_spec a b D trace Htrace Hhit HD)
    as (n0 & pts & n1 & Hbt & Hch & Hne).
  exists D, trace, pts. split; [done|].
  split; [by eapply traceOf_stopsAt|].
  split; [by apply first_hit_distance|]. split; [done|].
  unfold Operations. rewrite Hses, Hbt, ops_loop_skip.
  rewrite (ops_loop_chain a b pts 0 0 (Z.of_nat D)); try done.
  unfold len. simpl. lia.
Qed.

Lemma span_subseteq {A} (l : list A) (lo hi : Z) (s : A) :
  s ∈ span l lo hi -> s ∈ l.
Proof.
  unfold span. intros H%subseteq_take. by apply subseteq_drop in H.
Qed.

(** ** Replaying the operations of a path

    [R] relates a line of the result of [ApplyEdits] to the line of the
    target at the same place; it has to hold between a target line and
    itself, for the lines that an insertion brings, and between a source
    line and a target line that the comparer takes for equal, for the
    lines copied from the source. *)
Section Replay.
Variables a b : list gostring.
Variable R : gostring -> gostring -> Prop.
Hypothesis Rown : forall t, t ∈ b -> R t t.
Hypothesis Rkept : forall x y s t,
  eqAt a b x y = true -> at_ a x = Some s -> at_ b y = Some t -> R s t.

Lemma span_own (lo hi : Z) : Forall2 R (span b lo hi) (span b lo hi).
Proof.
  apply Forall_Forall2_diag, Forall_forall. intros t Ht.
  by eapply Rown, span_subseteq.
Qed.

Lemma span_kept (lo hi k lo' hi' : Z) :
  lo' = lo - k -> hi' = hi - k -> 0 <= lo <= hi ->
  (forall i, lo <= i < hi -> eqAt a b i (i - k) = true) ->
  Forall2 R (span a lo hi) (span b lo' hi').
Proof.
  intros -> -> Hlo. replace hi with (lo + Z.of_nat (Z.to_nat (hi - lo))) by lia.
  assert (H0 : 0 <= lo) by lia.
  generalize (Z.to_nat (hi - lo)) as n. clear hi Hlo.
  intros n. induction n as [|n IH]; intros Hm.
  - rewrite Z.add_0_r, !span_nil. constructor.
  - replace (lo + Z.of_nat (S n)) with (lo + Z.of_nat n + 1) in * by lia.
    pose proof (Hm (lo + Z.of_nat n) ltac:(lia)) as E.
    pose proof (eqAt_range _ _ _ _ E) as [Hra Hrb].
    destruct (at_in_range a (lo + Z.of_nat n)) as [s Hs]; [lia|].
    destruct (at_in_range b (lo + Z.of_nat n - k)) as [t Ht]; [lia|].
    rewrite (span_snoc a lo _ s) by (done || lia).
    replace (lo + Z.of_nat n + 1 - k) with (lo + Z.of_nat n - k + 1) by lia.
    destruct (decide (0 <= lo - k)).
    + rewrite (span_snoc b (lo - k) _ t) by (done || lia).
      apply Forall2_app; [|by repeat constructor; eapply Rkept].
      apply IH. intros i Hi. apply Hm. lia.
    + assert (n = 0%nat) as ->.
      { destruct n; [done|]. specialize (Hm lo ltac:(lia)).
        apply eqAt_range in Hm. lia. }
      lia.
Qed.

(** Replaying the operations of a path copies or inserts, line by line,
    a sequence related to [b]. *)
Lemma apply_chain (pts : list (list Z)) :
  forall x y c (acc : list gostring) (prev : Z),
    chain a b x y pts c -> 0 <= prev <= x -> x <= len a -> 0 <= y ->
    Forall2 R (acc ++ span a prev x) (take (Z.to_nat y) b) ->
    exists acc' prev',
      apply_loop a (chainOps b x y pts) acc prev = Some (acc', prev') /\
      0 <= prev' <= len a /\
      Forall2 R (acc' ++ span a prev' (len a)) b.
Proof.
  induction pts as [|p rest IH]; intros x y c acc prev Hch Hp Hx Hy HE.
  - destruct Hch as (-> & -> & _). exists acc, prev. split; [done|].
    split; [lia|]. unfold len in HE at 2.
    by rewrite Nat2Z.id, take_ge in HE by lia.
  - destruct Hch as (x' & y' & nd & ni & -> & Hseg & Hx' & Hy' & Hlt & Hch).
    rewrite chainOps_cons.
    pose proof Hseg as (Hnd & Hni & Hor & Hk & Hxnd & Hm).
    assert (Hb : forall lo, y <= lo -> lo <= y' ->
                 take (Z.to_nat lo) b ++ span b lo y' = take (Z.to_nat y') b).
    { intros lo H1 H2. rewrite <- !span_take. apply span_app; lia. }
    destruct (segment_cases _ _ _ _ _ _ _ _ Hseg)
      as [(? & ? & ->)|[(? & ? & ->)|(? & ? & ->)]]; simpl.
    + rewrite catch_up by lia. simpl.
      apply (IH x' y' (c - nd - ni)); [done | lia | lia | lia |].
      rewrite <- (Hb y) by lia. apply Forall2_app; [done|].
      apply (span_kept _ _ (x' - y')); [lia | lia | lia | done].
    + rewrite catch_up by lia. simpl.
      apply (IH x' y' (c - nd - ni)); [done | lia | lia | lia |].
      rewrite <- (Hb (y + ni)) by lia.
      rewrite <- span_take, <- (span_app b 0 y (y + ni)), span_take by lia.
      apply Forall2_app; [apply Forall2_app; [done | apply span_own]|].
      apply (span_kept _ _ (x' - y')); [lia | lia | lia |].
      intros i Hi. apply Hm. lia.
    + apply (IH x' y' (c - nd - ni)); [done | lia | lia | lia |].
      rewrite <- (span_app a prev x x'), app_assoc by lia.
      rewrite <- (Hb y) by lia. apply Forall2_app; [done|].
      apply (span_kept _ _ (x' - y')); [lia | lia | lia |].
      intros i Hi. apply Hm. lia.
Qed.

Lemma ApplyEdits_chain (pts : list (list Z)) (c : Z) :
  chain a b 0 0 pts c ->
  exists b', ApplyEdits a (chainOps b 0 0 pts) = Some b' /\ Forall2 R b' b.
Proof.
  intros Hch. pose proof (len_nonneg a) as Ha.
  destruct (apply_chain pts 0 0 c [] 0 Hch)
    as (acc & prev & Hap & Hprev & HE); [lia | lia | lia | |].
  { rewrite span_nil. constructor. }
  unfold ApplyEdits. rewrite Hap.
  rewrite (catch_up a acc prev (len a)) by lia. eauto.
Qed.
End Replay.

Lemma Forall2_exact {A} (R : A -> A -> Prop) (l1 l2 : list A) :
  Forall2 R l1 l2 -> (forall s t, t ∈ l2 -> R s t -> s = t) -> l1 = l2.
Proof.
  induction 1 as [|s t l1 l2 HR _ IH]; intros Hinj; [done|]. f_equal.
  - apply Hinj; [by left | done].
  - apply IH. intros s' t' Ht'. apply Hinj. by right.
Qed.

Lemma ordered_lookup (ops : list Op) :
  forall (lo : Z) (i : nat) (op : Op),
    ordered lo ops -> ops !! i = Some op ->
    lo <= I1 op /\ I1 op <= I2 op /\ ordered (I2 op) (drop (S i) ops).
Proof.
  induction ops as [|o ops IH]; intros lo i op Hord Hi; [done|].
  destruct Hord as (H1 & H2 & H3). destruct i as [|i]; simpl in *.
  - injection Hi as <-. by rewrite drop_0.
  - destruct (IH _ _ _ H3 Hi) as (? & ? & ?). split; [lia | done].
Qed.

Lemma ordered_pairs (ops : list Op) (lo : Z) (i j : nat) (opi opj : Op) :
  ordered lo ops -> (i < j)%nat ->
  ops !! i = Some opi -> ops !! j = Some opj ->
  I1 opi <= I2 opi /\ I2 opi <= I1 opj /\ I1 opj <= I2 opj.
Proof.
  intros Hord Hij Hi Hj.
  destruct (ordered_lookup _ _ _ _ Hord Hi) as (_ & H1 & Hrest).
  assert (Hj' : drop (S i) ops !! (j - S i)%nat = Some opj).
  { rewrite lookup_drop. rewrite <- Hj. f_equal. lia. }
  destruct (ordered_lookup _ _ _ _ Hrest Hj') as (? & ? & _). lia.
Qed.

Lemma not_both_empty (a b : list gostring) :
  a <> [] \/ b <> [] -> 0 < len a + len b.
Proof.
  unfold len. destruct a, b; simpl; intros [H|H]; try done; lia.
Qed.

Lemma linesEq_comparer (l1 l2 : list gostring) :
  linesEq l1 l2 ->
  Forall2 (fun s t => stringEqualIgnoreLF s t = Some true) l1 l2.
Proof.
  intros H. eapply Forall2_impl; [exact H|]. simpl. intros s t E.
  by rewrite stringEqualIgnoreLF_lineEq, E.
Qed.

(** C1, as the code has it.  For sequences that are not both empty and
    whose lines all end with a line feed, [Operations] returns an
    operation list, and [ApplyEdits] applied to the source and that list
    returns a sequence as long as the target in which each line is either
    the line of the target at that place itself, or a line of the source
    that is identical to it once the terminator (a line feed, with the
    carriage return before it if there is one) is removed from both.  So
    the round trip is exact as soon as no line of the source differs from
    a line of the target by its terminator only. *)
Theorem Operations_roundtrip (a b : list gostring) :
  a <> [] \/ b <> [] -> Forall endsWithLF a -> Forall endsWithLF b ->
  exists ops b',
    Operations a b = Some ops /\
    ApplyEdits a ops = Some b' /\
    Forall2 (fun s t => s = t \/
                        (s ∈ a /\ stripTerminator s = stripTerminator t))
            b' b /\
    ((forall s t, s ∈ a -> t ∈ b ->
                  stripTerminator s = stripTerminator t -> s = t) ->
     b' = b).
Proof.
  intros Hne%not_both_empty Ha Hb.
  destruct (Operations_spec a b Hne) as (D & trace & pts & _ & _ & _ & Hch & Hops).
  assert (Hkept : forall x y s t,
             eqAt a b x y = true -> at_ a x = Some s -> at_ b y = Some t ->
             s = t \/ (s ∈ a /\ stripTerminator s = stripTerminator t)).
  { intros x y s t E Hs Ht. right. unfold eqAt in E. rewrite Hs, Ht in E.
    apply at_Some in Hs as [_ Hs]. apply at_Some in Ht as [_ Ht].
    apply list_elem_of_lookup_2 in Hs, Ht. split; [done|].
    rewrite Forall_forall in Ha, Hb. apply lineEq_terminated; auto. }
  destruct (ApplyEdits_chain a b _ (fun t _ => or_introl eq_refl) Hkept
              pts _ Hch) as (b' & Hap & HE).
  exists (chainOps b 0 0 pts), b'. split; [done|]. split; [done|].
  split; [done|]. intros Hinj. eapply Forall2_exact; [exact HE|].
  intros s t Ht [->|[Hs E]]; [done | by apply Hinj].
Qed.

Lemma Operations_roundtrip_witness :
  exists ops b',
    Operations [crlf "a"; line "b"; line "c"] [line "a"; line "x"; line "c"]
      = Some ops /\
    ApplyEdits [crlf "a"; line "b"; line "c"] ops = Some b' /\
    Forall2 (fun s t => s = t \/
                        (s ∈ [crlf "a"; line "b"; line "c"] /\
                         stripTerminator s = stripTerminator t))
            b' [line "a"; line "x"; line "c"] /\
    ((forall s t, s ∈ [crlf "a"; line "b"; line "c"] ->
                  t ∈ [line "a"; line "x"; line "c"] ->
                  stripTerminator s = stripTerminator t -> s = t) ->
     b' = [line "a"; line "x"; line "c"]).
Proof.
  apply Operations_roundtrip; [left; discriminate | |].
  - apply List.Forall_cons; [by exists (str "a" ++ [CR])|].
    apply List.Forall_cons; [by exists (str "b")|].
    apply List.Forall_cons; [by exists (str "c")|]. apply List.Forall_nil.
  - apply List.Forall_cons; [by exists (str "a")|].
    apply List.Forall_cons; [by exists (str "x")|].
    apply List.Forall_cons; [by exists (str "c")|]. apply List.Forall_nil.
Defined.

(** C1 as stated fails: a source line and a target line that differ only
    by their terminators are taken for equal, no operation is returned, and
    applying the operations gives the source back, not the target. *)
Lemma Operations_roundtrip_not_exact :
  ~ exists ops,
      Operations [crlf "a"] [line "a"] = Some ops /\
      ApplyEdits [crlf "a"] ops = Some [line "a"].
Proof.
  intros (ops & H1 & H2). vm_compute in H1. injection H1 as <-.
  vm_compute in H2. discriminate H2.
Qed.

(** X6. What C2 says, for sequences that are not both empty: the search stops
    at a depth equal to the edit distance, and the operations returned
    delete and insert that many lines. *)
Theorem Operations_count_distance (a b : list gostring) :
  a <> [] \/ b <> [] ->
  exists (trace : list (list Z)) (D : nat) (ops : list Op),
    shortestEditSequence a b = Some (trace, len b + len a) /\
    stopsAt trace D /\
    Operations a b = Some ops /\
    editCount ops = Z.of_nat D /\
    editDistance a b D /\
    D = lineDistance a b.
Proof.
  intros Hne%not_both_empty.
  destruct (Operations_spec a b Hne)
    as (D & trace & pts & Hses & Hstop & Hdist & Hch & Hops).
  exists trace, D, (chainOps b 0 0 pts).
  split; [done|]. split; [done|]. split; [done|].
  split; [by apply (chainOps_count a b pts 0 0)|].
  split; [done | by apply editDistance_lineDistance].
Qed.

(** X7. What C4 says, for sequences that are not both empty: the operations
    returned are in ascending order of [I1] and their source ranges do not
    overlap, each range ending where the next one starts or before. *)
Theorem Operations_ordered (a b : list gostring) :
  a <> [] \/ b <> [] ->
  exists ops : list Op,
    Operations a b = Some ops /\
    forall (i j : nat) (opi opj : Op),
      (i < j)%nat -> ops !! i = Some opi -> ops !! j = Some opj ->
      I1 opi <= I1 opj /\ I1 opi <= I2 opi /\ I2 opi <= I1 opj.
Proof.
  intros Hne%not_both_empty.
  destruct (Operations_spec a b Hne) as (D & trace & pts & _ & _ & _ & Hch & Hops).
  exists (chainOps b 0 0 pts). split; [done|]. intros i j opi opj Hij Hi Hj.
  pose proof (chainOps_ordered a b pts 0 0 _ 0 Hch ltac:(lia)) as Hord.
  destruct (ordered_pairs _ _ _ _ _ _ Hord Hij Hi Hj) as (? & ? & ?). lia.
Qed.

(** C2 at the failing input.  For two empty sequences the edit distance
    is 0, but the forward search reads [V[1]] in a slice of length 1 and
    panics, and so does [Operations]. *)
Theorem shortestEditSequence_empty_panics :
  editDistance [] [] 0 /\
  shortestEditSequence [] [] = None /\ Operations [] [] = None.
Proof.
  split; [|split; reflexivity].
  split; [constructor | intros d _; lia].
Qed.

(** C4 at the failing input.  [Operations] returns no operation list for
    two empty sequences: it panics. *)
Theorem Operations_empty_panics : Operations [] [] = None.
Proof. reflexivity. Qed.

(** C6. The example of the specification. *)
Theorem Operations_example :
  Operations [line "a"; line "b"; line "c"] [line "a"; line "x"; line "c"] =
  Some [mkOp Delete [] 1 2 1; mkOp Insert [line "x"] 2 2 1].
Proof. reflexivity. Qed.

Lemma bt_loop_stop (fuel : nat) (trace : list (list Z)) (offset : Z)
    (s : btstate) :
  bt_cond s = false -> bt_loop fuel trace offset s = Some s.
Proof. intros H. destruct fuel; simpl; [done | by rewrite H]. Qed.

Lemma Operations_single (a b : list gostring) :
  0 < len a + len b -> len a = 0 \/ len b = 0 ->
  Operations a b = Some (chainOps b 0 0 [[len a; len b]]).
Proof.
  intros Hpos Hz. pose proof (len_nonneg a) as Ha. pose proof (len_nonneg b) as Hb.
  destruct (shortestEditSequence_spec a b Hpos)
    as (D & trace & Hses & _ & _ & _ & Hlen & _).
  unfold Operations. rewrite Hses. unfold backtrack.
  rewrite bt_loop_stop.
  2:{ unfold bt_cond, bt_init. simpl.
      destruct (Z.ltb_spec 0 (len a)), (Z.ltb_spec 0 (len b)); try done; lia. }
  unfold bt_finish, bt_init.
  destruct (Z.ltb_spec (len a) 0); [lia|].
  destruct (Z.ltb_spec (len b) 0); [lia|]. simpl.
  rewrite set_in_range by (rewrite len_make; lia).
  unfold make. rewrite Hlen.
  replace (Z.to_nat (len b + len a + 1))
    with (S (Z.to_nat (len b + len a + 1 - 1)) + 0)%nat by lia.
  rewrite replicate_add, insert_replicate_last, ops_loop_skip.
  apply (ops_loop_chain a b [[len a; len b]] 0 0 (len a + len b) [] []);
    try done.
  exists (len a), (len b), (len a), (len b). split; [done|]. split.
  - unfold segment. repeat split; lia.
  - simpl. repeat split; try done; lia.
Qed.

(** C5. With an empty source and a target that is not empty,
    [Operations] returns one operation, an [Insert] at [J1 = 0] whose
    content is the whole target; with a source that is not empty and an
    empty target it returns one operation, a [Delete] of the whole
    source. *)
Theorem Operations_one_side_empty :
  (forall b : list gostring, b <> [] ->
     Operations [] b = Some [mkOp Insert b 0 0 0]) /\
  (forall a : list gostring, a <> [] ->
     Operations a [] = Some [mkOp Delete [] 0 (len a) 0]).
Proof.
  split.
  - intros b Hb. assert (0 < len b) by (destruct b; [done | unfold len; simpl; lia]).
    rewrite Operations_single by (change (len []) with 0; lia).
    change (len (@nil gostring)) with 0. unfold chainOps, segOps.
    destruct (Z.ltb_spec 0 (Z.max 0 (0 - len b - (0 - 0)))); [lia|].
    destruct (Z.ltb_spec 0 (Z.max 0 (0 - 0 - (0 - len b)))); [|lia].
    rewrite app_nil_r. do 3 f_equal. unfold span. rewrite drop_0.
    apply take_ge. unfold len in *. lia.
  - intros a Ha. assert (0 < len a) by (destruct a; [done | unfold len; simpl; lia]).
    rewrite Operations_single by (change (len []) with 0; lia).
    change (len (@nil gostring)) with 0. unfold chainOps, segOps.
    destruct (Z.ltb_spec 0 (Z.max 0 (len a - 0 - (0 - 0)))); [|lia].
    rewrite app_nil_r. do 3 f_equal. lia.
Qed.

Lemma Operations_one_side_empty_witness :
  Operations [] [line "a"; line "b"] =
    Some [mkOp Insert [line "a"; line "b"] 0 0 0] /\
  Operations [line "a"; line "b"] [] =
    Some [mkOp Delete [] 0 (len [line "a"; line "b"]) 0].
Proof.
  split.
  - apply (proj1 Operations_one_side_empty). discriminate.
  - apply (proj2 Operations_one_side_empty). discriminate.
Defined.

(** ** The early exit of [backtrack] *)

Lemma wrap_range (z : Z) : - 2 ^ 63 <= wrap z < 2 ^ 63.
Proof. unfold wrap. zlia. Qed.

Lemma wrap_small (z : Z) : - 2 ^ 63 <= z < 2 ^ 63 -> wrap z = z.
Proof. unfold wrap. intros H. zlia. Qed.

(** The two versions of the loop body agree when the state it starts from
    and the [x] it reads from the trace are far from the ends of the range
    of [int]. *)
Lemma bt_body64_agree (trace : list (list Z)) (offset : Z) (s s' : btstate) :
  smallInt offset -> smallInt (bt_x s) -> smallInt (bt_y s) ->
  smallInt (bt_d s) ->
  bt_body trace offset s = Some s' -> smallInt (bt_x s') ->
  bt_body64 trace offset s = Some s'.
Proof.
  destruct s as [snakes x y d]. unfold smallInt. simpl.
  intros Ho Hx Hy Hd. unfold bt_body64, bt_body.
  destruct (at_ trace d) as [V|] eqn:HV; [|done].
  rewrite (wrap_small (d - 1)) by lia.
  destruct (len V =? 0); [done|].
  destruct (set_ snakes d [x; y]); [|done].
  rewrite (wrap_small (x - y)) by lia.
  assert (Hg : goesDown64 V (x - y) d offset = goesDown V (x - y) d offset).
  { unfold goesDown64, goesDown. rewrite (wrap_small (- d)) by lia.
    rewrite (wrap_small (x - y - 1)), (wrap_small (x - y + 1)) by lia.
    by rewrite !wrap_small by lia. }
  rewrite Hg. destruct (goesDown V (x - y) d offset) as [down|]; [|done].
  rewrite (wrap_small (x - y - 1)), (wrap_small (x - y + 1)) by lia.
  rewrite (wrap_small ((if down then x - y + 1 else x - y - 1) + offset))
    by (destruct down; lia).
  destruct (at_ V _) as [x'|] eqn:Hx'; [|done].
  intros [= <-]. simpl. intros Hs.
  rewrite wrap_small by (destruct down; lia). done.
Qed.

(** On the trace of the forward search, for sequences of fewer than
    [2^60] lines together, no integer of [backtrack] leaves the range of
    [int]: the version with wrap-around returns what the version on
    unbounded integers returns. *)
Section Bounded.
Variables a b : list gostring.
Variable D : nat.
Variable trace : list (list Z).
Hypothesis Htrace : traceOf a b D trace.
Hypothesis Hhit : hitAt a b D.
Hypothesis HD : (D <= length a + length b)%nat.
Hypothesis Hsmall : len a + len b <= 2 ^ 60.

Lemma btInv_small (s : btstate) :
  btInv a b D s ->
  bt_x s <= len a /\ bt_y s <= len b /\ bt_d s <= len b + len a.
Proof.
  unfold btInv. cbv zeta.
  intros [(Hd & Hx & Hy & _)|(n & pts & Hd & Hn & _ & _ & Hx & Hy & _)];
    unfold len in *; lia.
Qed.

Lemma btInv_lower (s : btstate) : btInv a b D s -> 0 <= bt_x s.
Proof.
  unfold btInv. intros [(_ & -> & _)|(n & pts & _ & _ & Hk & -> & _)].
  - apply len_nonneg.
  - by apply furthest_lower.
Qed.

Lemma bt_loop64_search (fuel : nat) (s : btstate) :
  btInv a b D s ->
  bt_loop64 fuel trace (len b + len a) s = bt_loop fuel trace (len b + len a) s.
Proof.
  pose proof (len_nonneg a) as Ha. pose proof (len_nonneg b) as Hb.
  revert s. induction fuel as [|fuel IH]; intros s Hinv; simpl; [done|].
  destruct (bt_cond s) eqn:Hc; [|done].
  destruct (bt_body_spec a b D trace Htrace Hhit HD s Hinv Hc)
    as (s1 & Hb1 & Hinv1 & _).
  pose proof (btInv_small _ Hinv) as (Hx & Hy & Hd).
  pose proof (btInv_small _ Hinv1) as (Hx1 & _).
  pose proof (btInv_lower _ Hinv1) as Hx0.
  unfold bt_cond in Hc. rewrite !andb_true_iff, !Z.ltb_lt in Hc.
  rewrite (bt_body64_agree trace (len b + len a) s s1
             ltac:(unfold smallInt; lia) ltac:(unfold smallInt; lia)
             ltac:(unfold smallInt; lia) ltac:(unfold smallInt; lia)
             Hb1 ltac:(unfold smallInt; lia)).
  rewrite Hb1. by apply IH.
Qed.

Lemma backtrack64_search :
  backtrack64 trace (len a) (len b) (len b + len a) =
  backtrack trace (len a) (len b) (len b + len a).
Proof.
  unfold backtrack64, backtrack. pose proof Htrace as (Hlen & _ & _).
  pose proof (len_nonneg a) as Ha. pose proof (len_nonneg b) as Hb.
  assert (Hi : bt_init64 trace (len a) (len b) = bt_init trace (len a) (len b)).
  { unfold bt_init64, bt_init. by rewrite wrap_small by lia. }
  rewrite Hi. rewrite bt_loop64_search; [done|].
  unfold btInv, bt_init. simpl. rewrite Hlen.
  destruct (decide (Z.of_nat D < len b + len a)) as [Hlt|Hge].
  - left. repeat split; try done; lia.
  - right. exists D, []. simpl. destruct Hhit as [Hh1 Hh2].
    unfold len in *.
    repeat split; try done; try lia.
    change ([] :: replicate D [] ++ ?l)
      with (replicate (S D) ([] : list Z) ++ l).
    rewrite <- replicate_add. unfold make. f_equal. lia.
Qed.
End Bounded.

Lemma bt_body64_depth (trace : list (list Z)) (offset : Z) (s s' : btstate) :
  bt_body64 trace offset s = Some s' -> bt_d s' = wrap (bt_d s - 1).
Proof.
  destruct s as [snakes x y d]. unfold bt_body64.
  destruct (at_ trace d) as [V|]; [|done].
  destruct (len V =? 0); [by intros [= <-]|].
  destruct (set_ snakes d [x; y]); [|done].
  destruct (goesDown64 V _ d offset) as [down|]; [|done].
  destruct (at_ V _); [|done]. by intros [= <-].
Qed.

Lemma bt_cond_depth (s : btstate) : bt_cond s = true -> 0 < bt_d s.
Proof.
  unfold bt_cond. rewrite !andb_true_iff, !Z.ltb_lt. tauto.
Qed.

Lemma bt_iter64_depth (n : nat) (trace : list (list Z)) (offset : Z)
    (s0 s : btstate) :
  bt_d s0 < 2 ^ 63 ->
  bt_iter64 n trace offset s0 = Some s ->
  bt_d s = bt_d s0 - Z.of_nat n /\ (Z.of_nat n <= bt_d s0 \/ n = 0%nat).
Proof.
  revert s0. induction n as [|n IH]; intros s0 Hr; simpl.
  - intros [= ->]. split; [lia | by right].
  - destruct (bt_cond s0) eqn:Hc; [|done]. apply bt_cond_depth in Hc.
    destruct (bt_body64 trace offset s0) as [s1|] eqn:Hb; [|done].
    apply bt_body64_depth in Hb. rewrite wrap_small in Hb by lia.
    intros H. apply IH in H as [H1 H2]; [|lia].
    split; [lia|]. left. destruct H2 as [H2| ->]; lia.
Qed.

Lemma bt_loop64_iter (n : nat) (trace : list (list Z)) (offset : Z) :
  forall (fuel : nat) (s0 s : btstate),
    bt_iter64 n trace offset s0 = Some s -> (n <= fuel)%nat ->
    bt_loop64 fuel trace offset s0 = bt_loop64 (fuel - n) trace offset s.
Proof.
  induction n as [|n IH]; intros fuel s0 s; simpl.
  - intros [= ->] _. by rewrite Nat.sub_0_r.
  - destruct (bt_cond s0) eqn:Hc; [|done].
    destruct (bt_body64 trace offset s0) as [s1|] eqn:Hb; [|done].
    intros H Hf. destruct fuel as [|fuel]; [lia|]. simpl.
    rewrite Hc, Hb. apply IH; [done | lia].
Qed.

Lemma bt_loop64_stop (fuel : nat) (trace : list (list Z)) (offset : Z)
    (s : btstate) :
  bt_cond s = false -> bt_loop64 fuel trace offset s = Some s.
Proof. intros H. destruct fuel; simpl; [done | by rewrite H]. Qed.

(** C8, as the code has it.  Whenever the walk of [backtrack] (with the
    wrap-around of [int] written out, [backtrack64]) arrives, after any
    number of executions of the loop body, at a negative [x] or [y], also
    one that is negative because the subtraction [x - kPrev] wrapped
    around, the loop stops there and [backtrack] returns the snakes
    recorded up to then, with no entry added after the loop and no
    panic. *)
Theorem backtrack_negative_exit (trace : list (list Z)) (x y offset : Z)
    (n : nat) (s : btstate) :
  bt_iter64 n trace offset (bt_init64 trace x y) = Some s ->
  bt_x s < 0 \/ bt_y s < 0 ->
  backtrack64 trace x y offset = Some (bt_snakes s).
Proof.
  intros Hit Hneg. unfold backtrack64.
  pose proof (wrap_range (len trace - 1)) as Hr.
  assert (H0 : bt_d (bt_init64 trace x y) = wrap (len trace - 1)) by done.
  destruct (bt_iter64_depth _ _ _ _ _ ltac:(rewrite H0; lia) Hit) as [Hd Hn].
  rewrite (bt_loop64_iter n trace offset _ _ s Hit) by lia.
  rewrite bt_loop64_stop.
  - destruct s as [snakes x' y' d']. simpl in *.
    destruct (Z.ltb_spec x' 0), (Z.ltb_spec y' 0); simpl; try done; lia.
  - unfold bt_cond.
    destruct (Z.ltb_spec 0 (bt_x s)), (Z.ltb_spec 0 (bt_y s)); try done; lia.
Qed.

Lemma backtrack_negative_exit_witness :
  backtrack64 [[]; [0; -7; 0]; [2 ^ 63 - 1; 0; 0]] 1 1 1 =
  Some [[]; []; [1; 1]].
Proof.
  apply (backtrack_negative_exit [[]; [0; -7; 0]; [2 ^ 63 - 1; 0; 0]] 1 1 1 1
           (mkBt [[]; []; [1; 1]] (2 ^ 63 - 1) (- 2 ^ 63) 1)).
  - reflexivity.
  - right. simpl. lia.
Defined.

(** C8 as stated fails: [backtrack] is not free of faults on every trace.
    On the empty trace the entry after the loop is stored at index [-1],
    which panics. *)
Lemma backtrack_empty_trace_panics : backtrack64 [] 0 0 0 = None.
Proof. reflexivity. Qed.

(** ** The loops run to their end

    Each loop is given as fuel the number of iterations it can make at
    most, so that it never stops for lack of fuel: when it returns, its
    condition is false or it has reached its [break]. *)

Lemma diag_loop_exit (a b : list gostring) (fuel : nat) :
  forall x y x' y',
    (Z.to_nat (len a - x) <= fuel)%nat ->
    diag_loop fuel a b x y = Some (x', y') ->
    (x' <? len a) && (y' <? len b) = false \/
    exists s t, at_ a x' = Some s /\ at_ b y' = Some t /\
                stringEqualIgnoreLF s t = Some false.
Proof.
  induction fuel as [|fuel IH]; intros x y x' y' Hf; simpl.
  - intros [= <- <-]. left. destruct (Z.ltb_spec x (len a)); [lia | done].
  - destruct ((x <? len a) && (y <? len b)) eqn:Hc; [|intros [= <- <-]; by left].
    destruct (at_ a x) as [s|] eqn:Hs; [|done].
    destruct (at_ b y) as [t|] eqn:Ht; [|done].
    destruct (stringEqualIgnoreLF s t) as [[|]|] eqn:E; [| |done].
    + apply IH. lia.
    + intros [= <- <-]. right. eauto.
Qed.

Lemma bt_body_depth (trace : list (list Z)) (offset : Z) (s s' : btstate) :
  bt_body trace offset s = Some s' -> bt_d s' = bt_d s - 1.
Proof.
  destruct s as [snakes x y d]. unfold bt_body.
  destruct (at_ trace d) as [V|]; [|done].
  destruct (len V =? 0); [by intros [= <-]|].
  destruct (set_ snakes d [x; y]); [|done].
  destruct (goesDown V (x - y) d offset) as [down|]; [|done].
  destruct (at_ V _); [|done]. by intros [= <-].
Qed.

Lemma bt_loop_exit (trace : list (list Z)) (offset : Z) (fuel : nat) :
  forall s s', bt_d s <= Z.of_nat fuel ->
    bt_loop fuel trace offset s = Some s' -> bt_cond s' = false.
Proof.
  induction fuel as [|fuel IH]; intros s s' Hd; simpl.
  - intros [= <-]. unfold bt_cond.
    destruct (Z.ltb_spec 0 (bt_d s)); [lia | by rewrite andb_false_r].
  - destruct (bt_cond s) eqn:Hc; [|by intros [= <-]].
    destruct (bt_body trace offset s) as [s1|] eqn:Hb; [|done].
    apply IH. apply bt_body_depth in Hb. lia.
Qed.

Lemma bt_loop64_exit (trace : list (list Z)) (offset : Z) (fuel : nat) :
  forall s s', bt_d s <= Z.of_nat fuel -> bt_d s < 2 ^ 63 ->
    bt_loop64 fuel trace offset s = Some s' -> bt_cond s' = false.
Proof.
  induction fuel as [|fuel IH]; intros s s' Hd Hr; simpl.
  - intros [= <-]. unfold bt_cond.
    destruct (Z.ltb_spec 0 (bt_d s)); [lia | by rewrite andb_false_r].
  - destruct (bt_cond s) eqn:Hc; [|by intros [= <-]].
    destruct (bt_body64 trace offset s) as [s1|] eqn:Hb; [|done].
    apply bt_cond_depth in Hc. apply bt_body64_depth in Hb.
    rewrite wrap_small in Hb by lia. apply IH; lia.
Qed.

Lemma del_loop_exit (s0 s1 M y : Z) (fuel : nat) :
  forall op x op' x',
    (Z.to_nat (s0 - s1 - (x - y)) <= fuel)%nat ->
    del_loop fuel s0 s1 M op x y = (op', x') ->
    s0 - s1 <= x' - y \/ x' = M.
Proof.
  induction fuel as [|fuel IH]; intros op x op' x' Hf; simpl.
  - intros [= <- <-]. lia.
  - destruct (Z.ltb_spec (x - y) (s0 - s1)); [|intros [= <- <-]; lia].
    destruct (Z.eqb_spec (x + 1) M); [intros [= <- <-]; by right|].
    apply IH. lia.
Qed.

Lemma ins_loop_exit (s0 s1 x : Z) (fuel : nat) :
  forall op y op' y',
    (Z.to_nat (x - y - (s0 - s1)) <= fuel)%nat ->
    ins_loop fuel s0 s1 op x y = (op', y') ->
    x - y' <= s0 - s1.
Proof.
  induction fuel as [|fuel IH]; intros op y op' y' Hf; simpl.
  - intros [= <- <-]. lia.
  - destruct (Z.ltb_spec (s0 - s1) (x - y)); [|intros [= <- <-]; lia].
    apply IH. lia.
Qed.

(** * Further properties *)

(** ** The line comparer *)

(** X1. The comparer never panics and is an equivalence relation on
    lines: reflexive, symmetric and transitive. *)
Theorem stringEqualIgnoreLF_equivalence :
  (forall a b : gostring, exists r, stringEqualIgnoreLF a b = Some r) /\
  (forall a : gostring, stringEqualIgnoreLF a a = Some true) /\
  (forall a b : gostring, stringEqualIgnoreLF a b = stringEqualIgnoreLF b a) /\
  (forall a b c : gostring,
      stringEqualIgnoreLF a b = Some true ->
      stringEqualIgnoreLF b c = Some true ->
      stringEqualIgnoreLF a c = Some true).
Proof.
  split; [|split; [|split]].
  - intros a b. rewrite stringEqualIgnoreLF_lineEq. eauto.
  - intros a. by rewrite stringEqualIgnoreLF_lineEq, lineEq_refl.
  - intros a b. by rewrite !stringEqualIgnoreLF_lineEq, lineEq_sym.
  - intros a b c. rewrite !stringEqualIgnoreLF_lineEq.
    intros [= H1] [= H2]. f_equal. by eapply lineEq_trans.
Qed.

Lemma stringEqualIgnoreLF_equivalence_witness :
  stringEqualIgnoreLF (crlf "ab") (str "abc") = Some true.
Proof.
  apply (proj2 (proj2 (proj2 stringEqualIgnoreLF_equivalence))
           (crlf "ab") (line "ab") (str "abc")); reflexivity.
Defined.

(** X2. Lines that the comparer takes for equal differ in length by one
    byte at most, and the empty line is equal to itself only. *)
Theorem stringEqualIgnoreLF_lengths (a b : gostring) :
  stringEqualIgnoreLF a b = Some true ->
  -1 <= len a - len b <= 1 /\ (a = [] <-> b = []).
Proof.
  rewrite stringEqualIgnoreLF_lineEq. intros [= H].
  apply bool_decide_eq_true_1 in H. injection H as Hk _.
  assert (Hlen : forall s : gostring,
             len s - 2 <= keptLen s <= len s - 1 /\
             (keptLen s = -1 <-> s = [])).
  { intros s. unfold keptLen. pose proof (len_nonneg s) as Hs.
    assert (len s = 0 <-> s = []) as <-.
    { unfold len. destruct s; simpl; split; intros; try done; lia. }
    destruct (Z.ltb_spec 0 (len s - 1)); simpl; [|lia].
    destruct (bool_decide _); lia. }
  destruct (Hlen a) as [Ha1 Ha2], (Hlen b) as [Hb1 Hb2].
  split; [lia|]. rewrite <- Ha2, <- Hb2. lia.
Qed.

Lemma stringEqualIgnoreLF_lengths_witness :
  -1 <= len (crlf "ab") - len (line "ab") <= 1 /\
  (crlf "ab" = [] <-> line "ab" = []).
Proof. apply stringEqualIgnoreLF_lengths. reflexivity. Defined.

(** ** Splitting into lines *)

Lemma SplitAfterLF_noLF (l : gostring) : noLF l -> SplitAfterLF l = [l].
Proof.
  induction 1 as [|c l Hc Hl IH]; simpl; [done|].
  destruct (Ascii.eqb_spec c LF); [done|]. by rewrite IH.
Qed.

Lemma SplitAfterLF_closed (c t : gostring) :
  noLF c -> SplitAfterLF ((c ++ [LF]) ++ t) = (c ++ [LF]) :: SplitAfterLF t.
Proof.
  induction 1 as [|x c Hx Hc IH]; simpl.
  - done.
  - destruct (Ascii.eqb_spec x LF); [done|]. by rewrite IH.
Qed.

Lemma SplitAfterLF_lines (init : list gostring) (lst : gostring) :
  Forall closedLine init -> noLF lst ->
  SplitAfterLF (concat init ++ lst) = init ++ [lst].
Proof.
  intros Hinit Hlst. induction Hinit as [|l init (c & -> & Hc) _ IH]; simpl.
  - by apply SplitAfterLF_noLF.
  - rewrite <- app_assoc, SplitAfterLF_closed by done. by rewrite IH.
Qed.

Lemma SplitLines_of_shape (init : list gostring) (lst : gostring) :
  Forall closedLine init -> noLF lst ->
  SplitLines (concat init ++ lst) =
  Some (if bool_decide (lst = []) then init else init ++ [lst]).
Proof.
  intros Hinit Hlst. unfold SplitLines. rewrite SplitAfterLF_lines by done.
  assert (Hlen : len (init ++ [lst]) - 1 = len init).
  { rewrite len_app. unfold len. simpl. lia. }
  rewrite Hlen. unfold len at 1. rewrite at_of_nat, list_lookup_middle by done.
  destruct (bool_decide (lst = [])); [|done].
  pose proof (len_nonneg init).
  rewrite slice_in_range by (rewrite ?len_app; unfold len in *; simpl; lia).
  f_equal. simpl. rewrite drop_0. apply take_app_length'. unfold len. lia.
Qed.

(** X3. Splitting the concatenation of well-formed lines gives the lines
    back: [SplitLines] inverts concatenation on sequences whose lines each
    end with their only line feed, the last one possibly being a non-empty
    line without line feed. *)
Theorem SplitLines_of_concat (init rest : list gostring) :
  Forall closedLine init ->
  rest = [] \/ (exists l, rest = [l] /\ openLine l) ->
  SplitLines (concat (init ++ rest)) = Some (init ++ rest).
Proof.
  intros Hinit [->|(l & -> & Hne & Hl)].
  - rewrite app_nil_r. rewrite <- (app_nil_r (concat init)).
    by rewrite SplitLines_of_shape by (done || constructor).
  - rewrite concat_app. simpl. rewrite app_nil_r.
    rewrite SplitLines_of_shape by done.
    by rewrite bool_decide_eq_false_2.
Qed.

Lemma SplitLines_of_concat_witness :
  SplitLines (concat ([line "a"; line ""] ++ [str "b"])) =
  Some ([line "a"; line ""] ++ [str "b"]).
Proof.
  apply SplitLines_of_concat.
  - repeat constructor.
    + exists (str "a"). split; [reflexivity|]. repeat constructor. discriminate.
    + exists []. split; [reflexivity|]. constructor.
  - right. exists (str "b"). split; [reflexivity|]. split; [discriminate|].
    repeat constructor. discriminate.
Defined.

(** X4. Splitting distributes over concatenation at the end of a line:
    the lines of a text that ends with a line feed, followed by the lines
    of a second text, are the lines of the two texts put together. *)
Theorem SplitLines_app (s t : gostring) :
  exists l1 l2,
    SplitLines (s ++ [LF]) = Some l1 /\ SplitLines t = Some l2 /\
    SplitLines ((s ++ [LF]) ++ t) = Some (l1 ++ l2).
Proof.
  destruct (SplitLines_shape (s ++ [LF]))
    as (i1 & e1 & _ & Hi1 & He1 & Hc1 & HS1).
  destruct (SplitLines_shape t) as (i2 & e2 & _ & Hi2 & He2 & Hc2 & HS2).
  assert (e1 = []) as ->.
  { destruct e1 as [|x e1] using rev_ind; [done|].
    rewrite app_assoc in Hc1. apply app_inj_tail in Hc1 as [_ ->].
    apply Forall_app in He1 as [_ He1]. by inversion He1. }
  rewrite app_nil_r in Hc1. rewrite bool_decide_eq_true_2 in HS1 by done.
  eexists _, _. split; [exact HS1|]. split; [exact HS2|].
  rewrite <- Hc1, <- Hc2, app_assoc, <- concat_app.
  rewrite SplitLines_of_shape; [|by apply Forall_app|done].
  f_equal. destruct (bool_decide (e2 = [])); [done | by rewrite app_assoc].
Qed.

(** ** The forward search *)

(** X5. On sequences that are not both empty the forward search returns
    a trace of [N+M+1] entries with the offset [N+M]; the depth at which
    it stops lies between the difference and the sum of the two lengths
    and has the parity of their sum. *)
Theorem shortestEditSequence_depth (a b : list gostring) :
  a <> [] \/ b <> [] ->
  exists (trace : list (list Z)) (D : nat),
    shortestEditSequence a b = Some (trace, len b + len a) /\
    len trace = len b + len a + 1 /\
    stopsAt trace D /\
    Z.abs (len a - len b) <= Z.of_nat D <= len a + len b /\
    (Z.of_nat D + len a + len b) mod 2 = 0.
Proof.
  intros Hne%not_both_empty.
  destruct (shortestEditSequence_spec a b Hne)
    as (D & trace & Hses & [Hd _] & _ & HD & Htrace).
  exists trace, D. split; [done|]. split; [apply Htrace|].
  split; [by eapply traceOf_stopsAt|]. apply onDiag_iff in Hd.
  unfold len in *. split; [lia | zlia].
Qed.

Lemma shortestEditSequence_depth_witness :
  exists (trace : list (list Z)) (D : nat),
    shortestEditSequence [line "a"; line "b"] [line "b"] =
      Some (trace, len [line "b"] + len [line "a"; line "b"]) /\
    len trace = len [line "b"] + len [line "a"; line "b"] + 1 /\
    stopsAt trace D /\
    Z.abs (len [line "a"; line "b"] - len [line "b"]) <= Z.of_nat D
      <= len [line "a"; line "b"] + len [line "b"] /\
    (Z.of_nat D + len [line "a"; line "b"] + len [line "b"]) mod 2 = 0.
Proof. apply shortestEditSequence_depth. left. discriminate. Defined.

(** ** The operations returned *)

Lemma Operations_count_distance_witness :
  exists (trace : list (list Z)) (D : nat) (ops : list Op),
    shortestEditSequence [line "a"; line "b"] [line "b"; line "c"] =
      Some (trace, len [line "b"; line "c"] + len [line "a"; line "b"]) /\
    stopsAt trace D /\
    Operations [line "a"; line "b"] [line "b"; line "c"] = Some ops /\
    editCount ops = Z.of_nat D /\
    editDistance [line "a"; line "b"] [line "b"; line "c"] D /\
    D = lineDistance [line "a"; line "b"] [line "b"; line "c"].
Proof. apply Operations_count_distance. left. discriminate. Defined.

Lemma Operations_ordered_witness :
  exists ops : list Op,
    Operations [line "a"; line "b"] [line "b"; line "c"] = Some ops /\
    forall (i j : nat) (opi opj : Op),
      (i < j)%nat -> ops !! i = Some opi -> ops !! j = Some opj ->
      I1 opi <= I1 opj /\ I1 opi <= I2 opi /\ I2 opi <= I1 opj.
Proof. apply Operations_ordered. left. discriminate. Defined.

Section Shape.
Variables a b : list gostring.

Lemma chainOps_wellFormed (pts : list (list Z)) :
  forall x y c, chain a b x y pts c -> 0 <= x -> 0 <= y ->
    Forall (wellFormedOp a b) (chainOps b x y pts).
Proof.
  induction pts as [|p rest IH]; intros x y c Hch Hx Hy; [constructor|].
  destruct Hch as (x' & y' & nd & ni & -> & Hseg & Hx' & Hy' & Hlt & Hch).
  rewrite chainOps_cons.
  pose proof Hseg as (Hnd & Hni & Hor & Hk & Hxnd & _).
  apply Forall_app. split; [|apply (IH _ _ _ Hch); lia].
  destruct (segment_cases _ _ _ _ _ _ _ _ Hseg)
    as [(? & ? & ->)|[(? & ? & ->)|(? & ? & ->)]]; [| |constructor].
  - repeat constructor; simpl; lia.
  - constructor; [|constructor]. unfold wellFormedOp. simpl.
    assert (Hl : len (span b y (y + ni)) = ni).
    { rewrite len_span by lia. lia. }
    split; [done|]. split; [lia|]. split.
    + intros E. rewrite E in Hl. unfold len in Hl. simpl in Hl. lia.
    + rewrite Hl. apply slice_span; lia.
Qed.

Lemma wellFormedOp_lines (op : Op) : wellFormedOp a b op -> 1 <= opLines op.
Proof.
  unfold wellFormedOp, opLines. destruct (Kind op); [lia| |done].
  intros (_ & _ & Hne & _). destruct (Content op); [done|].
  unfold len. simpl. lia.
Qed.

Lemma wellFormed_count (ops : list Op) :
  Forall (wellFormedOp a b) ops -> len ops <= editCount ops.
Proof.
  induction 1 as [|op ops Hop _ IH]; [done|].
  apply wellFormedOp_lines in Hop. rewrite len_cons. simpl. lia.
Qed.
End Shape.

Lemma script_all (a b : list gostring) : Script a b (length a + length b).
Proof.
  induction a as [|s a IH]; simpl; [apply script_inserts | by constructor].
Qed.

(** X8. On sequences that are not both empty every operation returned is
    a [Delete] or an [Insert], never an [Equal].  A [Delete] has no
    content and a range [I1 < I2] within the source; an [Insert] has an
    empty range [I1 = I2] within the source and carries the lines of the
    target from [J1] on, at least one.  There are no more operations
    than lines deleted and inserted, and no more of those than lines in
    the two sequences. *)
Theorem Operations_wellFormed (a b : list gostring) :
  a <> [] \/ b <> [] ->
  exists ops : list Op,
    Operations a b = Some ops /\
    Forall (wellFormedOp a b) ops /\
    len ops <= editCount ops <= len a + len b.
Proof.
  intros Hne%not_both_empty.
  destruct (Operations_spec a b Hne)
    as (D & trace & pts & _ & _ & Hdist & Hch & Hops).
  exists (chainOps b 0 0 pts). split; [done|].
  pose proof (chainOps_wellFormed a b pts 0 0 _ Hch ltac:(lia) ltac:(lia)) as Hwf.
  split; [done|]. split; [by eapply wellFormed_count|].
  rewrite (chainOps_count a b pts 0 0 _ Hch) by lia.
  destruct Hdist as [_ Hmin]. specialize (Hmin _ (script_all a b)).
  unfold len. lia.
Qed.

Lemma Operations_wellFormed_witness :
  exists ops : list Op,
    Operations [line "a"; line "b"] [line "b"; line "c"] = Some ops /\
    Forall (wellFormedOp [line "a"; line "b"] [line "b"; line "c"]) ops /\
    len ops <= editCount ops
      <= len [line "a"; line "b"] + len [line "b"; line "c"].
Proof. apply Operations_wellFormed. left. discriminate. Defined.

Lemma script_zero (a b : list gostring) : Script a b 0 <-> linesEq a b.
Proof.
  split.
  - intros H. remember 0%nat as d eqn:Hd.
    induction H as [|s t a b d E H IH| |]; [constructor| |done|done].
    constructor; [done | by apply IH].
  - induction 1 as [|s t a b E H IH]; [constructor | by constructor].
Qed.

(** X9. On sequences that are not both empty [Operations] returns the
    empty list exactly when the two sequences have the same length and
    their lines are pairwise equal for the comparer; so a sequence that
    is not empty has no operation against itself. *)
Theorem Operations_empty_iff (a b : list gostring) :
  a <> [] \/ b <> [] ->
  (Operations a b = Some [] <->
   Forall2 (fun s t => stringEqualIgnoreLF s t = Some true) a b) /\
  (a = b -> Operations a b = Some []).
Proof.
  intros Hne%not_both_empty.
  destruct (Operations_spec a b Hne)
    as (D & trace & pts & _ & _ & Hdist & Hch & Hops).
  pose proof (chainOps_count a b pts 0 0 _ Hch ltac:(lia)) as Hcount.
  pose proof (chainOps_wellFormed a b pts 0 0 _ Hch ltac:(lia) ltac:(lia)) as Hwf.
  assert (Hiff : Operations a b = Some [] <-> linesEq a b).
  { rewrite Hops. split.
    - intros [= E]. rewrite E in Hcount. simpl in Hcount.
      apply script_zero. replace 0%nat with D by lia. apply Hdist.
    - intros HE%script_zero. destruct Hdist as [_ Hmin].
      apply Hmin in HE. f_equal.
      apply wellFormed_count in Hwf. destruct (chainOps b 0 0 pts); [done|].
      rewrite len_cons in Hwf. pose proof (len_nonneg l). lia. }
  split.
  - rewrite Hiff. split; [apply linesEq_comparer|].
    intros H. eapply Forall2_impl; [exact H|]. simpl. intros s t E.
    rewrite stringEqualIgnoreLF_lineEq in E. by injection E.
  - intros ->. apply Hiff, linesEq_refl.
Qed.

Lemma Operations_empty_iff_witness :
  (Operations [line "a"; crlf "b"] [line "a"; line "b"] = Some [] <->
   Forall2 (fun s t => stringEqualIgnoreLF s t = Some true)
     [line "a"; crlf "b"] [line "a"; line "b"]) /\
  ([line "a"; crlf "b"] = [line "a"; line "b"] ->
   Operations [line "a"; crlf "b"] [line "a"; line "b"] = Some []).
Proof. apply Operations_empty_iff. left. discriminate. Defined.

(** ** Exact round trips *)

Section Exact.
Variables a b : list gostring.
Hypothesis Hexact : forall x y, eqAt a b x y = true -> at_ a x = at_ b y.

Lemma span_exact (lo hi k lo' hi' : Z) :
  lo' = lo - k -> hi' = hi - k -> 0 <= lo <= hi ->
  (forall i, lo <= i < hi -> eqAt a b i (i - k) = true) ->
  span a lo hi = span b lo' hi'.
Proof.
  intros -> -> Hlo. replace hi with (lo + Z.of_nat (Z.to_nat (hi - lo))) by lia.
  assert (H0 : 0 <= lo) by lia.
  generalize (Z.to_nat (hi - lo)) as n. clear hi Hlo.
  intros n. induction n as [|n IH]; intros Hm.
  - by rewrite Z.add_0_r, !span_nil.
  - replace (lo + Z.of_nat (S n)) with (lo + Z.of_nat n + 1) in * by lia.
    pose proof (Hm (lo + Z.of_nat n) ltac:(lia)) as E.
    pose proof (eqAt_range _ _ _ _ E) as [Hra Hrb].
    pose proof (Hexact _ _ E) as Hst.
    destruct (at_in_range a (lo + Z.of_nat n)) as [s Hs]; [lia|].
    rewrite Hs in Hst. symmetry in Hst.
    rewrite (span_snoc a lo _ s) by (done || lia).
    replace (lo + Z.of_nat n + 1 - k) with (lo + Z.of_nat n - k + 1) by lia.
    destruct (decide (0 <= lo - k)).
    + rewrite (span_snoc b (lo - k) _ s) by (done || lia).
      f_equal. apply IH. intros i Hi. apply Hm. lia.
    + assert (n = 0%nat) as ->.
      { destruct n; [done|]. specialize (Hm lo ltac:(lia)).
        apply eqAt_range in Hm. lia. }
      lia.
Qed.

Lemma apply_chain_exact (pts : list (list Z)) :
  forall x y c (acc : list gostring) (prev : Z),
    chain a b x y pts c -> 0 <= prev <= x -> x <= len a -> 0 <= y ->
    acc ++ span a prev x = take (Z.to_nat y) b ->
    exists acc' prev',
      apply_loop a (chainOps b x y pts) acc prev = Some (acc', prev') /\
      0 <= prev' <= len a /\
      acc' ++ span a prev' (len a) = b.
Proof.
  induction pts as [|p rest IH]; intros x y c acc prev Hch Hp Hx Hy HE.
  - destruct Hch as (-> & -> & _). exists acc, prev. split; [done|].
    split; [lia|]. unfold len in HE at 2.
    by rewrite Nat2Z.id, take_ge in HE by lia.
  - destruct Hch as (x' & y' & nd & ni & -> & Hseg & Hx' & Hy' & Hlt & Hch).
    rewrite chainOps_cons.
    pose proof Hseg as (Hnd & Hni & Hor & Hk & Hxnd & Hm).
    assert (Hb : forall lo, y <= lo -> lo <= y' ->
                 take (Z.to_nat lo) b ++ span b lo y' = take (Z.to_nat y') b).
    { intros lo H1 H2. rewrite <- !span_take. apply span_app; lia. }
    destruct (segment_cases _ _ _ _ _ _ _ _ Hseg)
      as [(? & ? & ->)|[(? & ? & ->)|(? & ? & ->)]]; simpl.
    + rewrite catch_up by lia. simpl.
      apply (IH x' y' (c - nd - ni)); [done | lia | lia | lia |].
      rewrite <- (Hb y) by lia. rewrite HE. f_equal.
      apply (span_exact _ _ (x' - y')); [lia | lia | lia | done].
    + rewrite catch_up by lia. simpl.
      apply (IH x' y' (c - nd - ni)); [done | lia | lia | lia |].
      rewrite <- (Hb (y + ni)) by lia.
      rewrite <- span_take, <- (span_app b 0 y (y + ni)), span_take by lia.
      rewrite HE. f_equal.
      apply (span_exact _ _ (x' - y')); [lia | lia | lia |].
      intros i Hi. apply Hm. lia.
    + apply (IH x' y' (c - nd - ni)); [done | lia | lia | lia |].
      rewrite <- (span_app a prev x x'), app_assoc by lia.
      rewrite <- (Hb y) by lia. rewrite HE. f_equal.
      apply (span_exact _ _ (x' - y')); [lia | lia | lia |].
      intros i Hi. apply Hm. lia.
Qed.
End Exact.

Lemma roundtrip_exact (a b : list gostring) :
  0 < len a + len b ->
  (forall s t, s ∈ a -> t ∈ b ->
               stringEqualIgnoreLF s t = Some true -> s = t) ->
  exists ops, Operations a b = Some ops /\ ApplyEdits a ops = Some b.
Proof.
  intros Hne Hinj.
  destruct (Operations_spec a b Hne) as (D & trace & pts & _ & _ & _ & Hch & Hops).
  exists (chainOps b 0 0 pts). split; [done|].
  pose proof (len_nonneg a) as Ha.
  assert (Hexact : forall x y, eqAt a b x y = true -> at_ a x = at_ b y).
  { intros x y E. unfold eqAt in E.
    destruct (at_ a x) as [s|] eqn:Hs; [|done].
    destruct (at_ b y) as [t|] eqn:Ht; [|done]. f_equal.
    apply at_Some in Hs as [_ Hs]. apply at_Some in Ht as [_ Ht].
    apply Hinj; [by eapply list_elem_of_lookup_2 ..|].
    by rewrite stringEqualIgnoreLF_lineEq, E. }
  destruct (apply_chain_exact a b Hexact pts 0 0 (Z.of_nat D) [] 0 Hch)
    as (acc & prev & Hap & Hprev & HE); [lia | lia | lia | done |].
  unfold ApplyEdits. rewrite Hap.
  rewrite (catch_up a acc prev (len a)) by lia. by rewrite HE.
Qed.

(** X10. When the comparer takes no line of the source for equal to a
    different line of the target, the round trip is exact: on sequences
    that are not both empty, applying the operations of [Operations] to
    the source with [ApplyEdits] returns the target itself. *)
Theorem Operations_roundtrip_exact (a b : list gostring) :
  a <> [] \/ b <> [] ->
  (forall s t, s ∈ a -> t ∈ b ->
               stringEqualIgnoreLF s t = Some true -> s = t) ->
  exists ops, Operations a b = Some ops /\ ApplyEdits a ops = Some b.
Proof. intros Hne%not_both_empty. by apply roundtrip_exact. Qed.

Lemma Operations_roundtrip_exact_witness :
  exists ops,
    Operations [line "a"; line "b"] [line "b"; line "c"] = Some ops /\
    ApplyEdits [line "a"; line "b"] ops = Some [line "b"; line "c"].
Proof.
  apply Operations_roundtrip_exact; [left; discriminate|].
  intros s t Hs Ht.
  apply list_elem_of_In in Hs, Ht. simpl in Hs, Ht.
  destruct Hs as [<-|[<-|[]]], Ht as [<-|[<-|[]]];
    first [reflexivity | discriminate].
Defined.

Lemma unixLine_key (s : gostring) :
  unixLine s -> lineKey s = (len s - 1, take (Z.to_nat (len s - 1)) s).
Proof.
  intros (c & -> & Hc). rewrite lineKey_snoc, len_app.
  replace (len c + len [LF] - 1) with (len c) by (unfold len; simpl; lia).
  assert (Hno : bool_decide (at_ c (len c - 1) = Some CR) = false
                \/ len c <= 0).
  { destruct c as [|x c] using rev_ind; [right; unfold len; simpl; lia|].
    left. apply bool_decide_eq_false_2. rewrite len_app.
    replace (len c + len [x] - 1) with (len c) by (unfold len; simpl; lia).
    unfold len. rewrite at_of_nat, list_lookup_middle by done.
    intros [= ->]. by destruct (Hc c). }
  cbv zeta.
  replace ((0 <? len c) && bool_decide (at_ c (len c - 1) = Some CR))
    with false.
  - f_equal. symmetry. apply take_app_le. unfold len. lia.
  - destruct Hno as [-> | Hle]; [by rewrite andb_false_r|].
    by destruct (Z.ltb_spec 0 (len c)); [lia|].
Qed.

Lemma unixLine_injective (s t : gostring) :
  unixLine s -> unixLine t -> stringEqualIgnoreLF s t = Some true -> s = t.
Proof.
  intros Hs Ht. rewrite stringEqualIgnoreLF_lineEq. intros [= E].
  apply bool_decide_eq_true_1 in E.
  rewrite (unixLine_key s Hs), (unixLine_key t Ht) in E.
  injection E as El Et.
  destruct Hs as (c & -> & _), Ht as (c' & -> & _).
  rewrite !len_app in El, Et.
  replace (len c + len [LF] - 1) with (len c) in * by (unfold len; simpl; lia).
  replace (len c' + len [LF] - 1) with (len c') in * by (unfold len; simpl; lia).
  unfold len in Et. rewrite !Nat2Z.id, !take_app_length in Et. by rewrite Et.
Qed.

(** X11. For texts in Unix form, every line ending with a line feed that
    no carriage return precedes, the round trip is exact on sequences that
    are not both empty. *)
Theorem Operations_roundtrip_unix (a b : list gostring) :
  a <> [] \/ b <> [] -> Forall unixLine a -> Forall unixLine b ->
  exists ops, Operations a b = Some ops /\ ApplyEdits a ops = Some b.
Proof.
  intros Hne%not_both_empty Ha Hb. apply roundtrip_exact; [done|].
  intros s t Hs Ht. rewrite Forall_forall in Ha, Hb.
  apply unixLine_injective; auto.
Qed.

Lemma Operations_roundtrip_unix_witness :
  exists ops,
    Operations [line "a"; line "b"] [line "b"] = Some ops /\
    ApplyEdits [line "a"; line "b"] ops = Some [line "b"].
Proof.
  assert (Ha : unixLine (line "a")).
  { exists (str "a"). split; [reflexivity|]. intros c' Hc'.
    apply (f_equal (@rev ascii)) in Hc'. rewrite rev_app_distr in Hc'.
    discriminate Hc'. }
  assert (Hb : unixLine (line "b")).
  { exists (str "b"). split; [reflexivity|]. intros c' Hc'.
    apply (f_equal (@rev ascii)) in Hc'. rewrite rev_app_distr in Hc'.
    discriminate Hc'. }
  apply Operations_roundtrip_unix; [left; discriminate | |];
    repeat constructor; assumption.
Defined.

(** ** Applying operations *)

Lemma apply_loop_in_range (a : list gostring) (ops : list Op) :
  forall (acc : list gostring) (prev : Z),
    0 <= prev ->
    Forall (fun op => 0 <= I1 op <= len a /\ 0 <= I2 op) ops ->
    exists acc' prev',
      apply_loop a ops acc prev = Some (acc', prev') /\ 0 <= prev'.
Proof.
  induction ops as [|op ops IH]; intros acc prev Hp Hops; simpl; [eauto|].
  apply Forall_cons in Hops as [[H1 H2] Hops].
  destruct (Z.ltb_spec 0 (I1 op - prev)).
  - rewrite slice_span by lia. by apply IH.
  - by apply IH.
Qed.

(** X12. [ApplyEdits] does not panic when every operation starts at an
    index between zero and the length of the source and ends at a
    non-negative index, whether or not the operations are sorted or
    consistent with each other. *)
Theorem ApplyEdits_in_range (a : list gostring) (ops : list Op) :
  Forall (fun op => 0 <= I1 op <= len a /\ 0 <= I2 op) ops ->
  exists b, ApplyEdits a ops = Some b.
Proof.
  intros Hops.
  destruct (apply_loop_in_range a ops [] 0 ltac:(lia) Hops)
    as (acc & prev & Hap & Hprev).
  unfold ApplyEdits. rewrite Hap.
  destruct (Z.ltb_spec 0 (len a - prev)); [|eauto].
  rewrite slice_span by lia. eauto.
Qed.

Lemma ApplyEdits_in_range_witness :
  exists b,
    ApplyEdits [line "a"; line "b"; line "c"]
      [mkOp Delete [] 2 3 0; mkOp Insert [line "x"] 1 1 0] = Some b.
Proof.
  apply ApplyEdits_in_range.
  repeat (apply List.Forall_cons; [unfold len; simpl; lia|]).
  apply List.Forall_nil.
Defined.

Lemma apply_loop_ordered (a : list gostring) (ops : list Op) :
  forall (acc : list gostring) (prev : Z),
    0 <= prev <= len a -> ordered prev ops ->
    Forall (fun op => I2 op <= len a) ops ->
    exists acc' prev',
      apply_loop a ops acc prev = Some (acc', prev') /\
      prev <= prev' <= len a /\
      len acc' + (len a - prev') =
      len acc + (len a - prev) - skipped ops + brought ops.
Proof.
  induction ops as [|op ops IH]; intros acc prev Hp Hord Hops; simpl.
  - exists acc, prev. split; [done|]. split; lia.
  - destruct Hord as (H1 & H2 & Hord). apply Forall_cons in Hops as [H3 Hops].
    rewrite catch_up by lia. simpl.
    destruct (IH (match Kind op with
                  | Delete => acc ++ span a prev (I1 op)
                  | _ => (acc ++ span a prev (I1 op)) ++ Content op
                  end) (I2 op)) as (acc' & prev' & Hap & Hp' & Hlen);
      [lia | done | done |].
    exists acc', prev'. split; [by destruct (Kind op)|]. split; [lia|].
    rewrite Hlen.
    destruct (Kind op); rewrite ?len_app, len_span by lia; lia.
Qed.

(** X13. On operations that are sorted with disjoint ranges within the
    source, [ApplyEdits] returns as many lines as the source has, less
    the lines in the ranges of the operations, plus the lines that the
    [Insert] and [Equal] operations carry. *)
Theorem ApplyEdits_length (a : list gostring) (ops : list Op) :
  ordered 0 ops -> Forall (fun op => I2 op <= len a) ops ->
  exists b,
    ApplyEdits a ops = Some b /\
    len b = len a - skipped ops + brought ops.
Proof.
  intros Hord Hops. pose proof (len_nonneg a) as Ha.
  destruct (apply_loop_ordered a ops [] 0 ltac:(lia) Hord Hops)
    as (acc & prev & Hap & Hprev & Hlen).
  unfold ApplyEdits. rewrite Hap, catch_up by lia.
  eexists. split; [done|]. rewrite len_app, len_span by lia.
  change (len (@nil gostring)) with 0 in Hlen. lia.
Qed.

Lemma ApplyEdits_length_witness :
  exists b,
    ApplyEdits [line "a"; line "b"; line "c"]
      [mkOp Delete [] 0 1 0; mkOp Insert [line "x"; line "y"] 2 2 0] = Some b /\
    len b = len [line "a"; line "b"; line "c"]
            - skipped [mkOp Delete [] 0 1 0; mkOp Insert [line "x"; line "y"] 2 2 0]
            + brought [mkOp Delete [] 0 1 0; mkOp Insert [line "x"; line "y"] 2 2 0].
Proof.
  apply ApplyEdits_length.
  - simpl. lia.
  - repeat (apply List.Forall_cons; [unfold len; simpl; lia|]).
    apply List.Forall_nil.
Defined.

(** ** The snake array *)

Lemma bt_body64_shape (trace : list (list Z)) (offset : Z) (s s' : btstate) :
  bt_body64 trace offset s = Some s' ->
  len (bt_snakes s') = len (bt_snakes s) /\
  (Forall snakeEntry (bt_snakes s) -> Forall snakeEntry (bt_snakes s')).
Proof.
  destruct s as [snakes x y d]. unfold bt_body64.
  destruct (at_ trace d) as [V|]; [|done].
  destruct (len V =? 0); [by intros [= <-]|].
  destruct (set_ snakes d [x; y]) as [snakes'|] eqn:Hset; [|done].
  destruct (goesDown64 V _ d offset) as [down|]; [|done].
  destruct (at_ V _); [|done]. intros [= <-]. simpl.
  split; [by eapply len_set|]. intros HF.
  unfold set_ in Hset. destruct (_ && _); [|done]. injection Hset as <-.
  apply Forall_insert; [done|]. right. eauto.
Qed.

Lemma bt_loop64_shape (trace : list (list Z)) (offset : Z) (fuel : nat) :
  forall s s', bt_loop64 fuel trace offset s = Some s' ->
    len (bt_snakes s') = len (bt_snakes s) /\
    (Forall snakeEntry (bt_snakes s) -> Forall snakeEntry (bt_snakes s')).
Proof.
  induction fuel as [|fuel IH]; intros s s'; simpl; [by intros [= <-]|].
  destruct (bt_cond s); [|by intros [= <-]].
  destruct (bt_body64 trace offset s) as [s1|] eqn:Hb; [|done].
  intros H. apply IH in H as [H1 H2]. apply bt_body64_shape in Hb as [H3 H4].
  split; [lia | auto].
Qed.

(** X15. Whatever the trace, when [backtrack] returns (here with the
    wrap-around of [int] written out, [backtrack64]), its result has one
    entry for each entry of the trace, and every entry is either unused
    (empty) or a point of two coordinates, which is what [Operations]
    relies on when it skips the entries shorter than two. *)
Theorem backtrack_shape (trace : list (list Z)) (x y offset : Z)
    (snakes : list (list Z)) :
  backtrack64 trace x y offset = Some snakes ->
  len snakes = len trace /\ Forall snakeEntry snakes.
Proof.
  unfold backtrack64.
  destruct (bt_loop64 _ trace offset (bt_init64 trace x y)) as [s|] eqn:Hl;
    [|done].
  apply bt_loop64_shape in Hl as [H1 H2]. simpl in H1, H2.
  assert (HF : Forall snakeEntry (bt_snakes s)).
  { apply H2. apply Forall_replicate. by left. }
  rewrite len_make in H1 by apply len_nonneg.
  destruct s as [sn x' y' d']. simpl in *.
  destruct ((x' <? 0) || (y' <? 0)); [by intros [= <-]|].
  intros Hset. split; [by rewrite (len_set _ _ _ _ Hset)|].
  unfold set_ in Hset. destruct (_ && _); [|done]. injection Hset as <-.
  apply Forall_insert; [done|]. right. eauto.
Qed.

Lemma backtrack_shape_witness :
  len [[]; []; [1; 1]] = len [[]; [0; -7; 0]; [2 ^ 63 - 1; 0; 0]] /\
  Forall snakeEntry [[]; []; [1; 1]].
Proof.
  apply (backtrack_shape [[]; [0; -7; 0]; [2 ^ 63 - 1; 0; 0]] 1 1 1).
  reflexivity.
Defined.

(** X16. When [backtrack] starts on the border of the edit graph, with
    [x] or [y] equal to zero and neither negative, it does not read the
    content of the trace: for every trace that is not empty it returns an
    array whose only used entry is the last one, holding the start
    point. *)
Theorem backtrack_border (trace : list (list Z)) (x y offset : Z) :
  trace <> [] -> 0 <= x -> 0 <= y -> x = 0 \/ y = 0 ->
  backtrack trace x y offset =
  Some (replicate (length trace - 1) [] ++ [[x; y]]).
Proof.
  intros Hne Hx Hy Hz.
  assert (0 < len trace) by (destruct trace; [done | unfold len; simpl; lia]).
  unfold backtrack. rewrite bt_loop_stop.
  2:{ unfold bt_cond, bt_init. simpl.
      destruct (Z.ltb_spec 0 x), (Z.ltb_spec 0 y); try done; lia. }
  unfold bt_finish, bt_init.
  destruct (Z.ltb_spec x 0); [lia|]. destruct (Z.ltb_spec y 0); [lia|]. simpl.
  rewrite set_in_range by (rewrite len_make; lia). f_equal. unfold make.
  replace (Z.to_nat (len trace)) with (S (length trace - 1) + 0)%nat
    by (unfold len in *; lia).
  replace (Z.to_nat (len trace - 1)) with (length trace - 1)%nat
    by (unfold len in *; lia).
  by rewrite replicate_add, insert_replicate_last.
Qed.

Lemma backtrack_border_witness :
  backtrack [[]; [7; 7; 7]; []] 0 2 5 =
  Some (replicate (length [[]; [7; 7; 7]; ([] : list Z)] - 1) [] ++ [[0; 2]]).
Proof. apply backtrack_border; [discriminate | lia | lia | by left]. Defined.

(** ** The linear scan [myOperations] *)

Lemma scan_loop_spec (a : list gostring) (bc : gostring) (fuel : nat) :
  forall aIdx, 0 <= aIdx <= len a -> (Z.to_nat (len a - aIdx) <= fuel)%nat ->
    exists r, scan_loop fuel a bc aIdx = Some r /\ aIdx <= r <= len a /\
      (r = aIdx -> r < len a ->
       exists s, at_ a r = Some s /\ lineEq bc s = true).
Proof.
  induction fuel as [|fuel IH]; intros aIdx Ha Hf; simpl.
  - exists aIdx. split; [done|]. split; [lia|]. intros _ H. lia.
  - destruct (Z.ltb_spec aIdx (len a)).
    + destruct (at_in_range a aIdx) as [s Hs]; [lia|].
      rewrite Hs, stringEqualIgnoreLF_lineEq. destruct (lineEq bc s) eqn:E.
      * exists aIdx. split; [done|]. split; [lia|]. eauto.
      * destruct (IH (aIdx + 1)) as (r & Hr & Hrange & _); [lia | lia|].
        exists r. split; [done|]. split; [lia|]. intros ->. lia.
    + exists aIdx. split; [done|]. split; [lia|]. intros _ H'. lia.
Qed.

Lemma my_loop_total (a b : list gostring) (rest : list gostring) :
  forall (bIdx : Z) (solution : list Op) (aIdx : Z),
    0 <= bIdx -> bIdx + len rest = len b ->
    0 <= aIdx <= len a -> 2 * len solution <= aIdx ->
    exists ops, my_loop a b rest bIdx solution aIdx = Some ops.
Proof.
  induction rest as [|bc rest IH]; intros bIdx solution aIdx Hb Hbl Ha Hsol;
    simpl; [eauto|].
  rewrite len_cons in Hbl. pose proof (len_nonneg rest) as Hr.
  pose proof (len_nonneg solution) as Hs.
  assert (Hins : forall sol, len sol <= len solution + 1 ->
             (len sol = len solution + 1 -> aIdx < len a) ->
             exists ops,
               match slice b bIdx (len b) with
               | Some c => store (len a + len b) sol
                             (mkOp Insert c bIdx bIdx bIdx)
               | None => None
               end = Some ops).
  { intros sol H1 H2. rewrite slice_span by lia. unfold store.
    destruct (Z.ltb_spec (len sol) (len a + len b)); [eauto|].
    destruct (decide (len sol = len solution + 1)) as [E|E];
      [specialize (H2 E)|]; lia. }
  destruct (Z.ltb_spec aIdx (len a)) as [Hlt|Hge].
  - destruct (at_in_range a aIdx) as [s Hs']; [lia|].
    rewrite Hs', stringEqualIgnoreLF_lineEq. destruct (lineEq bc s) eqn:E; simpl.
    + destruct (Z.leb_spec (len a) aIdx); [lia|]. apply IH; lia.
    + destruct (scan_loop_spec a bc (Z.to_nat (len a - aIdx)) aIdx)
        as (r & -> & Hrange & Hmatch); [lia | lia|].
      assert (aIdx < r).
      { destruct (decide (r = aIdx)) as [->|]; [|lia].
        destruct (Hmatch eq_refl Hlt) as (s' & Hs'' & E'). congruence. }
      unfold store at 1.
      destruct (Z.ltb_spec (len solution) (len a + len b)); [|lia].
      destruct (Z.leb_spec (len a) r).
      * apply Hins; [rewrite len_app; unfold len at 2; simpl; lia | done].
      * apply IH; try lia. rewrite len_app. unfold len at 2. simpl. lia.
  - simpl. destruct (Z.leb_spec (len a) aIdx); [|lia].
    apply Hins; lia.
Qed.

(** X17. The linear-scan variant [myOperations] never panics: for all
    sequences, also two empty ones, it returns an operation list, the
    [len(a)+len(b)] entries of its buffer being enough. *)
Theorem myOperations_total (a b : list gostring) :
  exists ops, myOperations a b = Some ops.
Proof.
  pose proof (len_nonneg a). apply my_loop_total; try lia.
  change (len (@nil Op)) with 0. lia.
Qed.

Lemma my_loop_matching (a1 : list gostring) :
  forall (rest a2 a0 b : list gostring) (bIdx : Z) (solution : list Op),
    linesEq rest a1 ->
    my_loop (a0 ++ a1 ++ a2) b rest bIdx solution (len a0) = Some solution.
Proof.
  intros rest a2 a0 b bIdx solution H. revert a0 bIdx.
  induction H as [|bc s rest a1 E H IH]; intros a0 bIdx; simpl; [done|].
  assert (HM : len a0 < len (a0 ++ s :: a1 ++ a2)).
  { rewrite len_app, len_cons. pose proof (len_nonneg (a1 ++ a2)). lia. }
  destruct (Z.ltb_spec (len a0) (len (a0 ++ s :: a1 ++ a2))); [|lia].
  assert (Hat : at_ (a0 ++ s :: a1 ++ a2) (len a0) = Some s).
  { unfold len. rewrite at_of_nat. by apply list_lookup_middle. }
  rewrite Hat, stringEqualIgnoreLF_lineEq, E. simpl.
  destruct (Z.leb_spec (len (a0 ++ s :: a1 ++ a2)) (len a0)); [lia|].
  specialize (IH (a0 ++ [s]) (bIdx + 1)).
  rewrite <- !app_assoc, len_app in IH. simpl in IH.
  by replace (len a0 + len [s]) with (len a0 + 1) in IH
    by (unfold len; simpl; lia).
Qed.

(** X18. When the lines of the target are, one by one, equal for the
    comparer to the first lines of the source, [myOperations] returns
    no operation at all: the lines of the source that follow are not
    reported as deleted. *)
Theorem myOperations_prefix (a1 a2 b : list gostring) :
  Forall2 (fun t s => stringEqualIgnoreLF t s = Some true) b a1 ->
  myOperations (a1 ++ a2) b = Some [].
Proof.
  intros H. unfold myOperations.
  apply (my_loop_matching a1 b a2 [] b 0 []).
  eapply Forall2_impl; [exact H|]. simpl. intros t s E.
  rewrite stringEqualIgnoreLF_lineEq in E. by injection E.
Qed.

Lemma myOperations_prefix_witness :
  myOperations ([crlf "a"] ++ [line "b"; line "c"]) [line "a"] = Some [].
Proof. apply myOperations_prefix. repeat constructor. Defined.

(** X19. On an empty source and a target that is not empty the linear
    scan and the Myers diff agree: both return the single [Insert] of the
    whole target at index 0. *)
Theorem myOperations_empty_source (b : list gostring) :
  b <> [] ->
  myOperations [] b = Operations [] b /\
  myOperations [] b = Some [mkOp Insert b 0 0 0].
Proof.
  intros Hb. assert (0 < len b) by (destruct b; [done | unfold len; simpl; lia]).
  assert (Hmy : myOperations [] b = Some [mkOp Insert b 0 0 0]).
  { unfold myOperations. destruct b as [|t b]; [done|]. simpl.
    rewrite slice_all. unfold store.
    change (len (@nil Op)) with 0. change (len (@nil gostring)) with 0.
    by destruct (Z.ltb_spec 0 (0 + len (t :: b))); [|lia]. }
  split; [|done]. rewrite Hmy.
  rewrite Operations_single by (change (len []) with 0; lia).
  change (len (@nil gostring)) with 0. unfold chainOps, segOps.
  destruct (Z.ltb_spec 0 (Z.max 0 (0 - len b - (0 - 0)))); [lia|].
  destruct (Z.ltb_spec 0 (Z.max 0 (0 - 0 - (0 - len b)))); [|lia].
  rewrite app_nil_r. do 3 f_equal. unfold span. rewrite drop_0.
  symmetry. apply take_ge. unfold len in *. lia.
Qed.

Lemma myOperations_empty_source_witness :
  myOperations [] [line "a"; line "b"] = Operations [] [line "a"; line "b"] /\
  myOperations [] [line "a"; line "b"] =
    Some [mkOp Insert [line "a"; line "b"] 0 0 0].
Proof. apply myOperations_empty_source. discriminate. Defined.

(** ** From text to text *)

Lemma unixText_lines (t : gostring) :
  unixText t ->
  exists lines,
    SplitLines t = Some lines /\ concat lines = t /\
    Forall unixLine lines /\ (lines = [] -> t = []).
Proof.
  intros [Hend Hcr].
  destruct (SplitLines_shape t) as (init & lst & _ & Hinit & Hlst & Hcat & HS).
  assert (lst = []) as ->.
  { destruct Hend as [->|[s ->]].
    - by apply app_eq_nil in Hcat as [_ ->].
    - destruct lst as [|x lst] using rev_ind; [done|].
      rewrite app_assoc in Hcat. apply app_inj_tail in Hcat as [_ ->].
      apply Forall_app in Hlst as [_ Hlst]. by inversion Hlst. }
  rewrite app_nil_r in Hcat. rewrite bool_decide_eq_true_2 in HS by done.
  exists init. split; [done|]. split; [done|]. split; [|by intros ->].
  subst t. clear HS Hend Hlst.
  induction Hinit as [|l init (c & -> & Hc) _ IH]; [constructor|].
  simpl in Hcr. apply Forall_app in Hcr as [Hl Hrest].
  constructor; [|by apply IH].
  exists c. split; [done|]. intros c' ->.
  apply Forall_app in Hl as [Hl _]. apply Forall_app in Hl as [_ Hl].
  by inversion Hl.
Qed.

(** X20. From text to text: for two texts in Unix form (no carriage
    return, a line feed at the end unless empty) that are not both empty,
    splitting both into lines, computing the operations and applying them
    to the lines of the first gives lines whose concatenation is the
    second text. *)
Theorem diff_texts_roundtrip (t1 t2 : gostring) :
  unixText t1 -> unixText t2 -> t1 <> [] \/ t2 <> [] ->
  exists l1 l2 ops l,
    SplitLines t1 = Some l1 /\ SplitLines t2 = Some l2 /\
    Operations l1 l2 = Some ops /\ ApplyEdits l1 ops = Some l /\
    concat l = t2.
Proof.
  intros H1 H2 Hne.
  destruct (unixText_lines t1 H1) as (l1 & HS1 & Hc1 & Hu1 & He1).
  destruct (unixText_lines t2 H2) as (l2 & HS2 & Hc2 & Hu2 & He2).
  destruct (roundtrip_exact l1 l2) as (ops & Hops & Hap).
  - apply not_both_empty. destruct Hne as [Hne|Hne]; [left|right];
      intros ->; apply Hne; auto.
  - intros s t Hs Ht. rewrite Forall_forall in Hu1, Hu2.
    apply unixLine_injective; auto.
  - by exists l1, l2, ops, l2.
Qed.

Lemma diff_texts_roundtrip_witness :
  exists l1 l2 ops l,
    SplitLines (line "a" ++ line "b") = Some l1 /\
    SplitLines (line "b" ++ line "c") = Some l2 /\
    Operations l1 l2 = Some ops /\ ApplyEdits l1 ops = Some l /\
    concat l = line "b" ++ line "c".
Proof.
  apply diff_texts_roundtrip.
  - split.
    + right. exists (line "a" ++ str "b"). reflexivity.
    + repeat (apply List.Forall_cons; [discriminate|]). apply List.Forall_nil.
  - split.
    + right. exists (line "b" ++ str "c"). reflexivity.
    + repeat (apply List.Forall_cons; [discriminate|]). apply List.Forall_nil.
  - left. discriminate.
Defined.
